(** * Static HTML rendering environment of vugu: a shallow embedding

    The development follows [env-static-html.go].  Go pointers are addresses
    into explicit heaps ([gmap nat _]), [nil] is [None]; the two node types
    ([VGNode] of the virtual DOM and [html.Node] of the output tree) live in
    two separate heaps.  Go maps are [gmap]s, a nil map is [None].

    Everything the file takes from elsewhere (the dynamic value type behind
    [interface{}], [fmt.Sprint], [Props.OrderedKeys], [html.ParseFragment],
    the behaviour of the output sink, [atom.Style]) is a parameter of the
    section [StaticHTML]. *)

From stdpp Require Import base option list gmap strings pretty fin_maps fin_sets.

#[local] Set Warnings "-clear-no-such-hyp".
#[local] Set Default Proof Using "Type".

(** ** Results of running Go code

    A Go function either returns ([Done]), panics (nil dereference, write to
    a nil map: [Panic]) or, in the model only, exhausts the recursion budget
    that stands for Go's unbounded recursion and loops ([OutOfFuel]).
    Go's [error] values are ordinary return values and are kept inside
    [Done]. *)

Inductive outcome (A : Type) : Type :=
  | Done (a : A)
  | Panic
  | OutOfFuel.
Arguments Done {A} a.
Arguments Panic {A}.
Arguments OutOfFuel {A}.

#[global] Instance outcome_ret : MRet outcome := fun A a => Done a.
#[global] Instance outcome_bind : MBind outcome := fun A B f m =>
  match m with
  | Done a => f a
  | Panic => Panic
  | OutOfFuel => OutOfFuel
  end.

(** Dereferencing an address; an address outside the heap cannot be built in
    Go, the model treats it like a nil dereference. *)
Definition deref {T : Type} (h : gmap nat T) (a : nat) : outcome T :=
  match h !! a with
  | Some v => Done v
  | None => Panic
  end.

(** ** Node kinds

    [html.NodeType] of the library; [VGNodeType] shares its numbering, the
    conversion [html.NodeType(vgn.Type)] is the identity. *)

Inductive NodeType : Type :=
  | ErrorNode | TextNode | DocumentNode | ElementNode | CommentNode | DoctypeNode.

#[global] Instance NodeType_eq_dec : EqDecision NodeType.
Proof. solve_decision. Defined.

(** ** Attributes of the virtual DOM

    The fields are the three conv copies from a [vgn.Attr] entry. *)

Module VGAttribute.
Record t : Type := mk { Namespace : string; Key : string; Val : string }.
End VGAttribute.

(** ** The output tree of [golang.org/x/net/html] *)

Module html.

Module Attribute.
Record t : Type := mk { Namespace : string; Key : string; Val : string }.
Definition setVal (a : t) (v : string) : t :=
  {| Namespace := Namespace a; Key := Key a; Val := v |}.
End Attribute.

Module Node.
Record t : Type := mk {
  Parent : option nat;
  FirstChild : option nat;
  LastChild : option nat;
  PrevSibling : option nat;
  NextSibling : option nat;
  Type_ : NodeType;
  DataAtom : N;
  Data : string;
  Namespace : string;
  Attr : list Attribute.t
}.

(** [&html.Node{}] *)
Definition zero : t :=
  mk None None None None None ErrorNode 0%N "" "" [].

Definition setParent (n : t) (p : option nat) : t :=
  mk p (FirstChild n) (LastChild n) (PrevSibling n) (NextSibling n)
     (Type_ n) (DataAtom n) (Data n) (Namespace n) (Attr n).
Definition setFirstChild (n : t) (p : option nat) : t :=
  mk (Parent n) p (LastChild n) (PrevSibling n) (NextSibling n)
     (Type_ n) (DataAtom n) (Data n) (Namespace n) (Attr n).
Definition setLastChild (n : t) (p : option nat) : t :=
  mk (Parent n) (FirstChild n) p (PrevSibling n) (NextSibling n)
     (Type_ n) (DataAtom n) (Data n) (Namespace n) (Attr n).
Definition setPrevSibling (n : t) (p : option nat) : t :=
  mk (Parent n) (FirstChild n) (LastChild n) p (NextSibling n)
     (Type_ n) (DataAtom n) (Data n) (Namespace n) (Attr n).
Definition setNextSibling (n : t) (p : option nat) : t :=
  mk (Parent n) (FirstChild n) (LastChild n) (PrevSibling n) p
     (Type_ n) (DataAtom n) (Data n) (Namespace n) (Attr n).
Definition setInfo (n : t) (ty : NodeType) (at_ : N) (d ns : string) : t :=
  mk (Parent n) (FirstChild n) (LastChild n) (PrevSibling n) (NextSibling n)
     ty at_ d ns (Attr n).
Definition setAttr (n : t) (l : list Attribute.t) : t :=
  mk (Parent n) (FirstChild n) (LastChild n) (PrevSibling n) (NextSibling n)
     (Type_ n) (DataAtom n) (Data n) (Namespace n) l.
End Node.

Abbreviation Heap := (gmap nat Node.t).

(** [Node.AppendChild] of the library: it panics on a child that is
    still attached somewhere, and otherwise links [c] behind the current
    last child of [n]. *)
Definition AppendChild (n : option nat) (c : option nat) (h : Heap)
  : outcome Heap :=
  match c with
  | None => Panic
  | Some ca =>
    cn ← deref h ca;
    if bool_decide (Node.Parent cn = None ∧ Node.PrevSibling cn = None
                    ∧ Node.NextSibling cn = None) then
      match n with
      | None => Panic
      | Some na =>
        nn ← deref h na;
        let last := Node.LastChild nn in
        h ← match last with
            | Some la =>
              ln ← deref h la;
              Done (<[la := Node.setNextSibling ln (Some ca)]> h)
            | None =>
              Done (<[na := Node.setFirstChild nn (Some ca)]> h)
            end;
        nn ← deref h na;
        let h := <[na := Node.setLastChild nn (Some ca)]> h in
        cn ← deref h ca;
        let h := <[ca := Node.setParent cn (Some na)]> h in
        cn ← deref h ca;
        Done (<[ca := Node.setPrevSibling cn last]> h)
      end
    else Panic
  end.

End html.

(** The children of an output node as the serializer sees them: the chain
    that starts at [FirstChild] and follows [NextSibling] to nil. *)
Inductive hchain (h : html.Heap) : option nat → list nat → Prop :=
  | hchain_nil : hchain h None []
  | hchain_cons a n l :
      h !! a = Some n →
      hchain h (html.Node.NextSibling n) l →
      hchain h (Some a) (a :: l).

Section StaticHTML.

(** ** What the file takes from its surroundings *)

(** Go's [interface{}] values held by [Props], with the nil interface, the
    boxing of a string and [fmt.Sprint]. *)
Context {Value : Type}.
Context (nilValue : Value) (stringValue : string → Value).
Context (Sprint : Value → string).

(** Instance data of a component, Go's [error], [io.Writer] handles. *)
Context {CompData : Type} {error : Type} {Writer : Type}.

(** [Props] is a Go map ([props[a.Key]], the comma-ok lookup); the order
    in which [Props.OrderedKeys] lists its keys is that method's business. *)
Abbreviation Props := (gmap string Value).
Context (OrderedKeys : Props → list string).

(** [vgn.Props[k]]: a missing key reads as the nil interface. *)
Definition propsGet (p : Props) (k : string) : Value :=
  default nilValue (p !! k).

(** Modelled from the spec: [Props.Clone] is not part of the file.  The
    instantiation properties are built on a copy of the node's properties
    ("copy props and merge in static attributes"), the node keeps its own;
    maps are values here, so the copy is the map. *)
Definition Clone (p : Props) : Props := p.

(** ** The virtual DOM node *)

(** Modelled from the spec: the declaration of [VGNode] is not part of the
    file.  The fields are the ones the file reads and writes, which are the
    specification's kind, tag, namespace, attributes, properties, raw markup
    and five links; [DataAtom] is the numeric atom the file copies. *)
Record VGNode : Type := mkVGNode {
  Type_ : NodeType;
  DataAtom : N;
  Data : string;
  Namespace : string;
  Attr : list VGAttribute.t;
  Props_ : Props;
  InnerHTML : string;
  Parent : option nat;
  FirstChild : option nat;
  LastChild : option nat;
  PrevSibling : option nat;
  NextSibling : option nat
}.

Abbreviation VHeap := (gmap nat VGNode).

Definition setParent (v : VGNode) (p : option nat) : VGNode :=
  mkVGNode (Type_ v) (DataAtom v) (Data v) (Namespace v) (Attr v) (Props_ v)
           (InnerHTML v) p (FirstChild v) (LastChild v) (PrevSibling v)
           (NextSibling v).
Definition setFirstChild (v : VGNode) (p : option nat) : VGNode :=
  mkVGNode (Type_ v) (DataAtom v) (Data v) (Namespace v) (Attr v) (Props_ v)
           (InnerHTML v) (Parent v) p (LastChild v) (PrevSibling v)
           (NextSibling v).
Definition setLastChild (v : VGNode) (p : option nat) : VGNode :=
  mkVGNode (Type_ v) (DataAtom v) (Data v) (Namespace v) (Attr v) (Props_ v)
           (InnerHTML v) (Parent v) (FirstChild v) p (PrevSibling v)
           (NextSibling v).
Definition setPrevSibling (v : VGNode) (p : option nat) : VGNode :=
  mkVGNode (Type_ v) (DataAtom v) (Data v) (Namespace v) (Attr v) (Props_ v)
           (InnerHTML v) (Parent v) (FirstChild v) (LastChild v) p
           (NextSibling v).
Definition setNextSibling (v : VGNode) (p : option nat) : VGNode :=
  mkVGNode (Type_ v) (DataAtom v) (Data v) (Namespace v) (Attr v) (Props_ v)
           (InnerHTML v) (Parent v) (FirstChild v) (LastChild v)
           (PrevSibling v) p.

(** The sibling chain from a node onwards, as [Walk] and the splice loop
    follow it. *)
Inductive vchain (h : VHeap) : option nat → list nat → Prop :=
  | vchain_nil : vchain h None []
  | vchain_cons a v l :
      h !! a = Some v →
      vchain h (NextSibling v) l →
      vchain h (Some a) (a :: l).

(** ** Properties handed to a new component instance (Render, the
    "copy props and merge in static attributes" loop) *)

Definition mergeStaticAttr (props : Props) (a : VGAttribute.t) : Props :=
  match props !! VGAttribute.Key a with
  | Some _ => props
  | None => <[VGAttribute.Key a := stringValue (VGAttribute.Val a)]> props
  end.

Definition instProps (vgn : VGNode) : Props :=
  foldl mergeStaticAttr (Clone (Props_ vgn)) (Attr vgn).

(** ** Attributes of an output node (conv, from "copy the other type and
    attr info" to the end of [propAttrLoop]) *)

Definition copyAttr (a : VGAttribute.t) : html.Attribute.t :=
  {| html.Attribute.Namespace := VGAttribute.Namespace a;
     html.Attribute.Key := VGAttribute.Key a;
     html.Attribute.Val := VGAttribute.Val a |}.

(** The inner loop of [propAttrLoop]: the first index [i] with
    [n.Attr[i].Key == k]. *)
Fixpoint findKey (k : string) (attrs : list html.Attribute.t) : option nat :=
  match attrs with
  | [] => None
  | a :: rest =>
    if decide (html.Attribute.Key a = k) then Some 0
    else S <$> findKey k rest
  end.

(** One round of [propAttrLoop]. *)
Definition propAttr (props : Props) (attrs : list html.Attribute.t)
           (k : string) : list html.Attribute.t :=
  match findKey k attrs with
  | Some i =>
    match attrs !! i with
    | Some a =>
      <[i := html.Attribute.setVal a (Sprint (propsGet props k))]> attrs
    | None => attrs
    end
  | None =>
    attrs ++ [ {| html.Attribute.Namespace := "";
                  html.Attribute.Key := k;
                  html.Attribute.Val := Sprint (propsGet props k) |} ]
  end.

Definition propAttrLoop (props : Props) (keys : list string)
           (attrs : list html.Attribute.t) : list html.Attribute.t :=
  foldl (propAttr props) attrs keys.

(** [nattr] is [n.Attr] on entry (nil for the node conv has just made). *)
Definition convAttrs (vgn : VGNode) (nattr : list html.Attribute.t)
  : list html.Attribute.t :=
  propAttrLoop (Props_ vgn) (OrderedKeys (Props_ vgn))
               (nattr ++ (copyAttr <$> Attr vgn)).

(** The result of [propAttrLoop] in closed form, over the list of keys it
    is run with: every attribute keeps its place, namespace and key; the
    first attribute of a listed key takes the stringified [vgn.Props[k]];
    the listed keys without an attribute follow, in the order of the list. *)
Definition overridden (props : Props) (keys : list string)
           (attrs : list html.Attribute.t) (i : nat) (a : html.Attribute.t)
  : html.Attribute.t :=
  if bool_decide (html.Attribute.Key a ∈ keys
                  ∧ findKey (html.Attribute.Key a) attrs = Some i)
  then html.Attribute.setVal a (Sprint (propsGet props (html.Attribute.Key a)))
  else a.

Definition appended (props : Props) (keys : list string)
           (attrs : list html.Attribute.t) : list html.Attribute.t :=
  (λ k, {| html.Attribute.Namespace := "";
           html.Attribute.Key := k;
           html.Attribute.Val := Sprint (propsGet props k) |})
    <$> filter (λ k, k ∉ html.Attribute.Key <$> attrs) keys.

Definition mergeKeys (props : Props) (keys : list string)
           (attrs : list html.Attribute.t) : list html.Attribute.t :=
  imap (overridden props keys attrs) attrs ++ appended props keys attrs.

(** Modelled from the spec: [Props.OrderedKeys] is not part of the file.
    The specification has the merge go through "each property key (in
    property insertion order)": the list holds the keys of the properties,
    each once.  A Go map records no insertion order; the order is the one
    in which the method lists the keys. *)
Definition listsPropertyKeys (keys : list string) (p : Props) : Prop :=
  NoDup keys ∧ ∀ k, k ∈ keys ↔ is_Some (p !! k).

(** The merge as the specification words it: "if an attribute of the same
    key already exists its value is overwritten with the stringified
    property value in place", and that is the first attribute of the key;
    "attributes with no corresponding property pass through unchanged";
    "otherwise a new attribute is appended at the end", one per property
    without an attribute, in the order [order] of the property keys. *)
Definition overwritten (props : Props) (attrs : list html.Attribute.t)
           (i : nat) (a : html.Attribute.t) : html.Attribute.t :=
  match props !! html.Attribute.Key a with
  | Some v =>
    if decide (findKey (html.Attribute.Key a) attrs = Some i)
    then html.Attribute.setVal a (Sprint v)
    else a
  | None => a
  end.

Definition newAttrs (props : Props) (order : list string)
           (attrs : list html.Attribute.t) : list html.Attribute.t :=
  omap (λ k, match props !! k with
             | Some v =>
               if decide (k ∈ html.Attribute.Key <$> attrs) then None
               else Some {| html.Attribute.Namespace := "";
                            html.Attribute.Key := k;
                            html.Attribute.Val := Sprint v |}
             | None => None
             end) order.

Definition mergeSpec (props : Props) (order : list string)
           (attrs : list html.Attribute.t) : list html.Attribute.t :=
  imap (overwritten props attrs) attrs ++ newAttrs props order attrs.

(** ** Linking a child into a virtual DOM node *)

(** Modelled from the spec: [VGNode.AppendChild] is not part of the file.
    The style aggregator "links" a fragment's content "into the aggregate
    collection in encounter order": [c] becomes the last child of [n],
    behind the children [n] already has. *)
Definition AppendChild (n : option nat) (c : option nat) (h : VHeap)
  : outcome VHeap :=
  match n, c with
  | Some na, Some ca =>
    nn ← deref h na;
    let last := LastChild nn in
    h ← match last with
        | Some la =>
          ln ← deref h la;
          Done (<[la := setNextSibling ln (Some ca)]> h)
        | None => Done (<[na := setFirstChild nn (Some ca)]> h)
        end;
    nn ← deref h na;
    let h := <[na := setLastChild nn (Some ca)]> h in
    cn ← deref h ca;
    let h := <[ca := setParent cn (Some na)]> h in
    cn ← deref h ca;
    Done (<[ca := setPrevSibling cn last]> h)
  | _, _ => Panic
  end.

(** ** Component types, instances and the environment *)

(** Modelled from the spec: the interface [ComponentType] is declared in
    another file.  It is "a pure builder: given opaque instance data,
    produces a root VNode subtree and an optional styling fragment, or
    fails": [BuildVDOM(data)] returns [(vdom, css, err)]; the nodes it
    builds are allocated in the heap it is run on. *)
Record ComponentType : Type := mkComponentType {
  BuildVDOM : CompData → VHeap → VHeap * option nat * option nat * option error
}.

(** Modelled from the spec: [ComponentInst] "ties a Component Type to
    concrete instance data"; the file reads its fields [Type] and [Data]. *)
Record ComponentInst : Type := mkComponentInst {
  ci_Type : ComponentType;
  ci_Data : CompData
}.

(** [New(ct, props)] returns a pointer to a [ComponentInst] and an error;
    it lives in another file of the package. *)
Context (New : ComponentType → Props → option ComponentInst * option error).

(** [ComponentTypeMap] is a Go map, [None] is the nil map. *)
Abbreviation ComponentTypeMap := (option (gmap string ComponentType)).

Record StaticHTMLEnv : Type := mkStaticHTMLEnv {
  reg : ComponentTypeMap;
  rootInst : option ComponentInst;
  out : Writer
}.

Definition NewStaticHTMLEnv (out : Writer) (rootInst : option ComponentInst)
           (components : ComponentTypeMap) : StaticHTMLEnv :=
  let components :=
    match components with
    | None => Some ∅
    | Some m => Some m
    end in
  {| reg := components; rootInst := rootInst; out := out |}.

(** [e.reg[tagName] = ct]: assignment to an entry of a nil map panics. *)
Definition RegisterComponentType (e : StaticHTMLEnv) (tagName : string)
           (ct : ComponentType) : outcome StaticHTMLEnv :=
  match reg e with
  | None => Panic
  | Some m =>
    Done {| reg := Some (<[tagName := ct]> m);
            rootInst := rootInst e; out := out e |}
  end.

(** [ct, ok := e.reg[vgn.Data]]: reading a nil map finds nothing. *)
Definition regLookup (r : ComponentTypeMap) (tag : string)
  : option ComponentType :=
  match r with
  | None => None
  | Some m => m !! tag
  end.

(** ** The expansion walk *)

(** [for cn := cdom.FirstChild; cn != nil; cn = cn.NextSibling
    { cn.Parent = vgn }] *)
Fixpoint reparent (fuel : nat) (cn : option nat) (vgn : nat) (h : VHeap)
  : outcome VHeap :=
  match cn with
  | None => Done h
  | Some c =>
    match fuel with
    | 0 => OutOfFuel
    | S fuel =>
      cv ← deref h c;
      let h := <[c := setParent cv (Some vgn)]> h in
      cv ← deref h c;
      reparent fuel (NextSibling cv) vgn h
    end
  end.

(** "make cdom replace vgn": the loop above, then the tuple assignment
    [*vgn, vgn.Parent, vgn.PrevSibling, vgn.NextSibling =
     *cdom, vgn.Parent, vgn.PrevSibling, vgn.NextSibling],
    whose right-hand side is read before anything is written. *)
Definition splice (fuel : nat) (vgn : nat) (cdom : option nat) (h : VHeap)
  : outcome VHeap :=
  match cdom with
  | None => Panic
  | Some ca =>
    cd ← deref h ca;
    h ← reparent fuel (FirstChild cd) vgn h;
    cd ← deref h ca;
    old ← deref h vgn;
    Done (<[vgn := setNextSibling
                     (setPrevSibling (setParent cd (Parent old))
                                     (PrevSibling old))
                     (NextSibling old)]> h)
  end.

(** [if ccss != nil && ccss.FirstChild != nil
    { css.AppendChild(ccss.FirstChild) }] *)
Definition aggregateStyle (css ccss : option nat) (h : VHeap)
  : outcome VHeap :=
  match ccss with
  | None => Done h
  | Some ca =>
    cv ← deref h ca;
    match FirstChild cv with
    | None => Done h
    | Some f => AppendChild css (Some f) h
    end
  end.

(** The function literal handed to [vdom.Walk]. *)
Definition expand (fuel : nat) (e : StaticHTMLEnv) (css : option nat)
           (vgn : nat) (h : VHeap) : outcome (option error * VHeap) :=
  v ← deref h vgn;
  if decide (Type_ v ≠ ElementNode) then Done (None, h)
  else
    match regLookup (reg e) (Data v) with
    | None => Done (None, h)
    | Some ct =>
      let props := instProps v in
      let '(compInst, err) := New ct props in
      match err with
      | Some err => Done (Some err, h)
      | None =>
        ci ← match compInst with Some ci => Done ci | None => Panic end;
        let '(h, cdom, ccss, err) := BuildVDOM ct (ci_Data ci) h in
        match err with
        | Some err => Done (Some err, h)
        | None =>
          h ← aggregateStyle css ccss h;
          h ← splice fuel vgn cdom h;
          Done (None, h)
        end
      end
    end.

(** Modelled from the spec: [VGNode.Walk] is not part of the file.  It is
    "one depth-first, pre-order traversal" in "document order (pre-order,
    first child before next sibling)", the callback runs on a node before
    its children are read, so that the traversal "continues from the
    now-overwritten node into its (new) children", and the first error of
    the callback stops the traversal and is its result. *)
Fixpoint Walk (fuel : nat) (f : nat → VHeap → outcome (option error * VHeap))
         (vgn : option nat) (h : VHeap) {struct fuel}
  : outcome (option error * VHeap) :=
  match fuel with
  | 0 => OutOfFuel
  | S fuel =>
    match vgn with
    | None => Done (None, h)
    | Some a =>
      '(err, h) ← f a h;
      match err with
      | Some err => Done (Some err, h)
      | None =>
        v ← deref h a;
        walkSiblings fuel f (FirstChild v) h
      end
    end
  end
with walkSiblings (fuel : nat)
         (f : nat → VHeap → outcome (option error * VHeap))
         (n : option nat) (h : VHeap) {struct fuel}
  : outcome (option error * VHeap) :=
  match fuel with
  | 0 => OutOfFuel
  | S fuel =>
    match n with
    | None => Done (None, h)
    | Some a =>
      '(err, h) ← Walk fuel f (Some a) h;
      match err with
      | Some err => Done (Some err, h)
      | None =>
        v ← deref h a;
        walkSiblings fuel f (NextSibling v) h
      end
    end
  end.

(** ** Conversion of the virtual DOM graph to the output graph *)

(** [html.ParseFragment(bytes.NewReader([]byte(vgn.InnerHTML)), cruftBody)]
    returns [([]*html.Node, error)]; the nodes it returns are allocated in
    the output heap it is run on. *)
Context (ParseFragment : string → html.Heap → html.Heap * list nat * option error).

(** What conv does that leaves no trace in its result: which output node
    it made for which input node ([n := &html.Node{}]), and how each parse
    of an [InnerHTML] ended.  The log is written, never read. *)
Inductive ConvEvent : Type :=
  | EvAlloc (vgn : nat) (n : nat)
  | EvParse (vgn : nat) (err : option error).

Record ConvState : Type := mkConvState {
  hheap : html.Heap;
  ptrMap : gmap nat nat;
  events : list ConvEvent
}.

(** [n.field = ...] on the output node at address [n]. *)
Definition assign (n : nat) (f : html.Node.t → html.Node.t) (s : ConvState)
  : ConvState :=
  {| hheap := alter f n (hheap s); ptrMap := ptrMap s; events := events s |}.

(** [n.X, err = conv(vgn.X)]: the link is stored whatever [err] is. *)
Definition convLink
           (conv : option nat → ConvState →
                   outcome (option nat * option error * ConvState))
           (n : nat) (target : option nat)
           (set : html.Node.t → option nat → html.Node.t) (s : ConvState)
  : outcome (option error * ConvState) :=
  '(r, err, s) ← conv target s;
  Done (err, assign n (λ x, set x r) s).

(** "copy the other type and attr info", then [propAttrLoop]. *)
Definition convInfo (vgn : VGNode) (n : nat) (s : ConvState) : ConvState :=
  let s := assign n (λ x, html.Node.setInfo x (Type_ vgn) (DataAtom vgn)
                                            (Data vgn) (Namespace vgn)) s in
  assign n (λ x, html.Node.setAttr x (convAttrs vgn (html.Node.Attr x))) s.

(** [for _, innerN := range innerNs { n.AppendChild(innerN) }] *)
Fixpoint appendAll (n : nat) (innerNs : list nat) (h : html.Heap)
  : outcome html.Heap :=
  match innerNs with
  | [] => Done h
  | innerN :: rest =>
    h ← html.AppendChild (Some n) (Some innerN) h;
    appendAll n rest h
  end.

(** "parse and expand InnerHTML if present", and the final [return n, nil]. *)
Definition convInner (a : nat) (vgn : VGNode) (n : nat) (s : ConvState)
  : outcome (option nat * option error * ConvState) :=
  if decide (InnerHTML vgn = "") then Done (Some n, None, s)
  else
    let '(hh, innerNs, err) := ParseFragment (InnerHTML vgn) (hheap s) in
    let s := {| hheap := hh; ptrMap := ptrMap s;
                events := events s ++ [EvParse a err] |} in
    match err with
    | Some err => Done (None, Some err, s)
    | None =>
      hh ← appendAll n innerNs (hheap s);
      Done (Some n, None,
            {| hheap := hh; ptrMap := ptrMap s; events := events s |})
    end.

Fixpoint conv (fuel : nat) (vh : VHeap) (vgn : option nat) (s : ConvState)
  : outcome (option nat * option error * ConvState) :=
  match fuel with
  | 0 => OutOfFuel
  | S fuel =>
    match vgn with
    | None => Done (None, None, s)
    | Some a =>
      match ptrMap s !! a with
      | Some n => Done (Some n, None, s)
      | None =>
        let n := fresh (dom (hheap s)) in
        let s := {| hheap := <[n := html.Node.zero]> (hheap s);
                    ptrMap := <[a := n]> (ptrMap s);
                    events := events s ++ [EvAlloc a n] |} in
        v ← deref vh a;
        '(err, s) ← convLink (conv fuel vh) n (Parent v) html.Node.setParent s;
        match err with
        | Some err => Done (Some n, Some err, s)
        | None =>
        '(err, s) ← convLink (conv fuel vh) n (FirstChild v)
                             html.Node.setFirstChild s;
        match err with
        | Some err => Done (Some n, Some err, s)
        | None =>
        '(err, s) ← convLink (conv fuel vh) n (LastChild v)
                             html.Node.setLastChild s;
        match err with
        | Some err => Done (Some n, Some err, s)
        | None =>
        '(err, s) ← convLink (conv fuel vh) n (PrevSibling v)
                             html.Node.setPrevSibling s;
        match err with
        | Some err => Done (Some n, Some err, s)
        | None =>
        '(err, s) ← convLink (conv fuel vh) n (NextSibling v)
                             html.Node.setNextSibling s;
        match err with
        | Some err => Done (Some n, Some err, s)
        | None => convInner a v n (convInfo v n s)
        end end end end end
      end
    end
  end.

(** ** Render *)

(** One call of [html.Render(out, n)]: the writer, the node and the output
    graph as it was at the call. *)
Record RenderCall : Type := mkRenderCall {
  rc_out : Writer;
  rc_node : nat;
  rc_heap : html.Heap
}.

(** Whether the sink rejects the latest of the calls made so far. *)
Context (sinkErr : list RenderCall → option error).

(** [atom.Style] *)
Context (atom_Style : N).

Record World : Type := mkWorld {
  vheap : VHeap;
  oheap : html.Heap;
  written : list RenderCall
}.

(** [html.Render(w, n)] of the library, a nil node panics in it. *)
Definition html_Render (out : Writer) (n : option nat) (w : World)
  : outcome (option error * World) :=
  match n with
  | None => Panic
  | Some na =>
    let calls := written w ++ [mkRenderCall out na (oheap w)] in
    Done (sinkErr calls,
          {| vheap := vheap w; oheap := oheap w; written := calls |})
  end.

(** "output css" *)
Definition renderStyle (e : StaticHTMLEnv) (css : option nat) (w : World)
  : outcome (option error * World) :=
  match css with
  | None => Done (None, w)
  | Some ca =>
    cv ← deref (vheap w) ca;
    match FirstChild cv with
    | None => Done (None, w)
    | Some fa =>
      let cssn := fresh (dom (oheap w)) in
      let hh := <[cssn := html.Node.mk None None None None None ElementNode
                                       atom_Style "style" "" []]> (oheap w) in
      fv ← deref (vheap w) fa;
      let t := fresh (dom hh) in
      let hh := <[t := html.Node.mk None None None None None TextNode
                                    0%N (Data fv) "" []]> hh in
      hh ← html.AppendChild (Some cssn) (Some t) hh;
      html_Render (out e) (Some cssn)
                  {| vheap := vheap w; oheap := hh; written := written w |}
    end
  end.

(** From [ptrMap := make(...)] to the end of Render. *)
Definition renderTree (fuel : nat) (e : StaticHTMLEnv) (vdom : option nat)
           (w : World) : outcome (option error * World) :=
  '(outn, err, s) ← conv fuel (vheap w) vdom
                         {| hheap := oheap w; ptrMap := ∅; events := [] |};
  let w := {| vheap := vheap w; oheap := hheap s; written := written w |} in
  match err with
  | Some err => Done (Some err, w)
  | None =>
    '(err, w) ← html_Render (out e) outn w;
    match err with
    | Some err => Done (Some err, w)
    | None => Done (None, w)
    end
  end.

(** Render after the walk. *)
Definition renderOutput (fuel : nat) (e : StaticHTMLEnv)
           (vdom css : option nat) (w : World)
  : outcome (option error * World) :=
  '(err, w) ← renderStyle e css w;
  match err with
  | Some err => Done (Some err, w)
  | None => renderTree fuel e vdom w
  end.

Definition Render (fuel : nat) (e : StaticHTMLEnv) (w : World)
  : outcome (option error * World) :=
  c ← match rootInst e with Some c => Done c | None => Panic end;
  let '(vh, vdom, css, err) := BuildVDOM (ci_Type c) (ci_Data c) (vheap w) in
  let w := {| vheap := vh; oheap := oheap w; written := written w |} in
  match err with
  | Some err => Done (Some err, w)
  | None =>
    (* err = vdom.Walk(...): the result is stored in err and the next use
       of err is an assignment *)
    '(err, vh) ← Walk fuel (expand fuel e css) vdom (vheap w);
    let w := {| vheap := vh; oheap := oheap w; written := written w |} in
    renderOutput fuel e vdom css w
  end.

(** ** Predicates used in the statements *)

(** The data and the first child of every node survive [h ~> h']. *)
Definition keeps (h h' : VHeap) : Prop :=
  ∀ a v, h !! a = Some v →
         ∃ v', h' !! a = Some v' ∧ Data v' = Data v
               ∧ FirstChild v' = FirstChild v.

(** The input nodes for which a stretch of the log records a new output
    node. *)
Definition allocKeys (evs : list ConvEvent) : list nat :=
  omap (λ ev, match ev with EvAlloc a _ => Some a | EvParse _ _ => None end) evs.

(** What a run of conv from [s] to [s'] that logged [evs] did to the
    identity map: entries are only added, one per logged allocation, for
    input nodes that had none. *)
Definition grows (s s' : ConvState) (evs : list ConvEvent) : Prop :=
  events s' = events s ++ evs
  ∧ ptrMap s ⊆ ptrMap s'
  ∧ dom (ptrMap s') = dom (ptrMap s) ∪ list_to_set (allocKeys evs)
  ∧ NoDup (allocKeys evs)
  ∧ (∀ a, a ∈ allocKeys evs → ptrMap s !! a = None)
  ∧ (∀ a n, EvAlloc a n ∈ evs → ptrMap s' !! a = Some n).

(** How the logged parses relate to the error conv returned: a failed parse
    is the error returned, an error returned is a failed parse, every parse
    is the parse of the non-empty [InnerHTML] of the node it is logged for,
    and without an error every node converted in the run that has a
    non-empty [InnerHTML] was parsed. *)
Definition parses (vh : VHeap) (evs : list ConvEvent) (err : option error)
  : Prop :=
  (∀ a e, EvParse a (Some e) ∈ evs → err = Some e)
  ∧ (∀ e, err = Some e → ∃ a, EvParse a (Some e) ∈ evs)
  ∧ (∀ a o, EvParse a o ∈ evs →
       ∃ v hh, vh !! a = Some v ∧ InnerHTML v ≠ ""
               ∧ (ParseFragment (InnerHTML v) hh).2 = o)
  ∧ (err = None →
     ∀ a v, a ∈ allocKeys evs → vh !! a = Some v → InnerHTML v ≠ "" →
            EvParse a None ∈ evs).

(** Every link of every node of the heap is nil or a node of the heap. *)
Definition closed (vh : VHeap) : Prop :=
  ∀ a v, vh !! a = Some v →
    ∀ b, Some b ∈ [Parent v; FirstChild v; LastChild v; PrevSibling v;
                   NextSibling v] →
         is_Some (vh !! b).

(** An output node that is linked nowhere, as [ParseFragment] returns them. *)
Definition detached (h : html.Heap) (c : nat) : Prop :=
  ∃ cn, h !! c = Some cn ∧ html.Node.Parent cn = None
        ∧ html.Node.PrevSibling cn = None ∧ html.Node.NextSibling cn = None.

(** [cs] are the children of the output node [n]: the sibling chain from
    its first child, which ends at its last child. *)
Definition children (h : html.Heap) (n : nat) (cs : list nat) : Prop :=
  ∃ nn, h !! n = Some nn ∧ hchain h (html.Node.FirstChild nn) cs
        ∧ html.Node.LastChild nn = last cs.

(** The output link for an input link under the identity map. *)
Definition image (pm : gmap nat nat) (t : option nat) : option nat :=
  t ≫= λ b, pm !! b.

(** The five links of a node. *)
Definition links (v : VGNode) : list (option nat) :=
  [Parent v; FirstChild v; LastChild v; PrevSibling v; NextSibling v].

(** The output node [n] is the conversion of the input node [a]: it carries
    the node's kind, atom, tag and namespace, the merged attributes, and as
    links the images of the node's links, which all have an image. *)
Definition converted (vh : VHeap) (pm : gmap nat nat) (hh : html.Heap)
           (a n : nat) : Prop :=
  ∃ v, vh !! a = Some v
       ∧ hh !! n
         = Some (html.Node.mk (image pm (Parent v)) (image pm (FirstChild v))
                              (image pm (LastChild v)) (image pm (PrevSibling v))
                              (image pm (NextSibling v))
                              (Type_ v) (DataAtom v) (Data v) (Namespace v)
                              (convAttrs v []))
       ∧ ∀ b, Some b ∈ links v → is_Some (pm !! b).

(** The output nodes a stretch of the log records. *)
Definition allocNodes (evs : list ConvEvent) : list nat :=
  omap (λ ev, match ev with EvAlloc _ n => Some n | EvParse _ _ => None end) evs.

(** A resolved link: the result is the image of the target, which has one. *)
Definition linkOK (pm : gmap nat nat) (tr : option nat * option nat) : Prop :=
  tr.2 = image pm tr.1 ∧ ∀ b, tr.1 = Some b → is_Some (pm !! b).

(** What a run of conv on a heap without raw markup does, from [s] to [s']
    with the log [evs]. *)
Definition isoRun (vh : VHeap) (s s' : ConvState)
           (evs : list ConvEvent) : Prop :=
  events s' = events s ++ evs
  ∧ ptrMap s ⊆ ptrMap s'
  ∧ hheap s ⊆ hheap s'
  ∧ NoDup (allocNodes evs)
  ∧ ∀ a n, EvAlloc a n ∈ evs →
           hheap s !! n = None ∧ converted vh (ptrMap s') (hheap s') a n.

(** The same inside the call that made the output node [n]: [n] holds [x],
    the other nodes are kept, [ls] are the links resolved so far. *)
Definition isoFrame (vh : VHeap) (n : nat) (s0 s : ConvState)
           (acc : list ConvEvent) (x : html.Node.t)
           (ls : list (option nat * option nat)) : Prop :=
  events s = events s0 ++ acc
  ∧ ptrMap s0 ⊆ ptrMap s
  ∧ hheap s !! n = Some x
  ∧ (∀ m y, m ≠ n → hheap s0 !! m = Some y → hheap s !! m = Some y)
  ∧ NoDup (allocNodes acc)
  ∧ (∀ a m, EvAlloc a m ∈ acc →
            m ≠ n ∧ hheap s0 !! m = None
            ∧ converted vh (ptrMap s) (hheap s) a m)
  ∧ Forall (linkOK (ptrMap s)) ls.

End StaticHTML.

(** * A concrete instance

    Values are nil, strings and integers; instance data is the properties
    map; errors are messages; there is one writer; [OrderedKeys] lists the
    keys in the order of the map; the parser knows text only and rejects
    the markup ["<"]; the sink accepts every write. *)

Module Ex.

Inductive GoValue : Type :=
  | VNil
  | VString (s : string)
  | VInt (z : Z).

Definition GoSprint (v : GoValue) : string :=
  match v with
  | VNil => "<nil>"
  | VString s => s
  | VInt z => pretty z
  end.

Definition orderedKeys (p : gmap string GoValue) : list string :=
  (map_to_list p).*1.

Abbreviation CType := (@ComponentType GoValue (gmap string GoValue) string).
Abbreviation CInst := (@ComponentInst GoValue (gmap string GoValue) string).
Abbreviation Node := (@VGNode GoValue).

Definition newInst (ct : CType) (props : gmap string GoValue)
  : option CInst * option string :=
  (Some (mkComponentInst ct props), None).

Definition textNode (data : string) : html.Node.t :=
  html.Node.mk None None None None None TextNode 0%N data "" [].

Definition parseFragment (s : string) (hh : html.Heap)
  : html.Heap * list nat * option string :=
  if decide (s = "<") then (hh, [], Some "unexpected EOF")
  else
    let t := fresh (dom hh) in
    (<[t := textNode s]> hh, [t], None).

Definition sinkOk (calls : list (@RenderCall unit)) : option string := None.

Definition styleAtom : N := 1%N.

(** An element without attributes, properties or raw markup. *)
Definition element (tag : string) (parent first last prev next : option nat)
  : Node :=
  mkVGNode ElementNode 0%N tag "" [] ∅ "" parent first last prev next.

Definition text (data : string) (parent prev next : option nat) : Node :=
  mkVGNode TextNode 0%N data "" [] ∅ "" parent None None prev next.

(** The root component: [<div><widget/></div>], no style. *)
Definition rootType : CType :=
  mkComponentType (λ _ h,
    let d := fresh (dom h) in
    let h := <[d := element "div" None None None None None]> h in
    let c := fresh (dom h) in
    let h := <[c := element "widget" (Some d) None None None None]> h in
    let h := <[d := element "div" None (Some c) (Some c) None None]> h in
    (h, Some d, None, None)).

(** A component whose builder fails. *)
Definition failingType : CType :=
  mkComponentType (λ _ h, (h, None, None, Some "build failed")).

(** A component that renders [<span>X</span>] and a style fragment. *)
Definition spanType : CType :=
  mkComponentType (λ _ h,
    let sp := fresh (dom h) in
    let h := <[sp := element "span" None None None None None]> h in
    let x := fresh (dom h) in
    let h := <[x := text "X" (Some sp) None None]> h in
    let h := <[sp := element "span" None (Some x) (Some x) None None]> h in
    let st := fresh (dom h) in
    let h := <[st := element "style" None None None None None]> h in
    let tx := fresh (dom h) in
    let h := <[tx := text "b{color:blue}" (Some st) None None]> h in
    let h := <[st := element "style" None (Some tx) (Some tx) None None]> h in
    (h, Some sp, Some st, None)).

(** The root component with a style of its own: the same tree and the
    style fragment ["a{color:red}"]. *)
Definition styledRootType : CType :=
  mkComponentType (λ _ h,
    let d := fresh (dom h) in
    let h := <[d := element "div" None None None None None]> h in
    let c := fresh (dom h) in
    let h := <[c := element "widget" (Some d) None None None None]> h in
    let h := <[d := element "div" None (Some c) (Some c) None None]> h in
    let st := fresh (dom h) in
    let h := <[st := element "style" None None None None None]> h in
    let tx := fresh (dom h) in
    let h := <[tx := text "a{color:red}" (Some st) None None]> h in
    let h := <[st := element "style" None (Some tx) (Some tx) None None]> h in
    (h, Some d, Some st, None)).

(** The root component that is a registered element itself: [<widget/>]. *)
Definition bareRootType : CType :=
  mkComponentType (λ _ h,
    let d := fresh (dom h) in
    (<[d := element "widget" None None None None None]> h, Some d, None, None)).

(** A matched element at 0 with a parent and two siblings, and a replacement
    tree [<span>ab</span>] at 1, 2, 3. *)
Definition spliceHeap : gmap nat Node :=
  <[0 := element "widget" (Some 7) None None (Some 5) (Some 6)]>
  (<[1 := element "span" None (Some 2) (Some 3) None None]>
   (<[2 := text "a" (Some 1) None (Some 3)]>
    (<[3 := text "b" (Some 1) (Some 2) None]> ∅))).

(** A style aggregate at 0 whose first child holds ["a{color:red}"]. *)
Definition styleWorld : @World GoValue unit :=
  mkWorld (<[0 := element "style" None (Some 1) (Some 1) None None]>
           (<[1 := text "a{color:red}" (Some 0) None None]> ∅))
          ∅ [].

(** [<input foo="bar" x="1">] with the properties [foo = 42] and [baz = 7]. *)
Definition boundNode : Node :=
  mkVGNode ElementNode 0%N "input" ""
           [VGAttribute.mk "" "foo" "bar"; VGAttribute.mk "" "x" "1"]
           (<["foo" := VInt 42]> (<["baz" := VInt 7]> ∅))
           "" None None None None None.

(** [<div><span/></div>]: the child's parent link closes a cycle. *)
Definition cyclicHeap : gmap nat Node :=
  <[0 := element "div" None (Some 1) (Some 1) None None]>
  (<[1 := element "span" (Some 0) None None None None]> ∅).

(** [<p>] with raw markup the parser rejects, and with raw markup it takes. *)
Definition rawNode (markup : string) : Node :=
  mkVGNode ElementNode 0%N "p" "" [] ∅ markup None None None None None.

Definition convState0 : @ConvState string := mkConvState ∅ ∅ [].

(** An output node [<p>] at 0 with one child, a text node, at 1. *)
Definition outputHeap : html.Heap :=
  <[0 := html.Node.mk None (Some 1) (Some 1) None None ElementNode 0%N "p" "" []]>
  (<[1 := html.Node.mk (Some 0) None None None None TextNode 0%N "kid" "" []]> ∅).

(** A sink that rejects every write. *)
Definition sinkClosed (calls : list (@RenderCall unit)) : option string :=
  Some "closed pipe".

(** A component whose tree brings in the component's own tag:
    [<widget><widget/></widget>]. *)
Definition selfType : CType :=
  mkComponentType (λ _ h,
    let r := fresh (dom h) in
    let c := fresh (dom h ∪ {[r]}) in
    (<[r := element "widget" None (Some c) (Some c) None None]>
       (<[c := element "widget" (Some r) None None None None]> h),
     Some r, None, None)).

(** The heap after the root [styledRootType] and the component [spanType]
    were built: tree at 0, 1; root style at 2, 3; component tree at 4, 5;
    component style at 6, 7. *)
Definition builtHeap : gmap nat Node :=
  (BuildVDOM spanType ∅ (BuildVDOM styledRootType ∅ ∅).1.1.1).1.1.1.

(** A component whose builder returns nothing at all. *)
Definition emptyType : CType :=
  mkComponentType (λ _ h, (h, None, None, None)).

Definition env (root : CType) (registry : gmap string CType) :=
  NewStaticHTMLEnv (Writer := unit) tt (Some (mkComponentInst root ∅))
                   (Some registry).

Definition world0 : @World GoValue unit := mkWorld ∅ ∅ [].

Definition render :=
  Render VNil VString GoSprint orderedKeys newInst parseFragment sinkOk styleAtom.

Definition walk (fuel : nat) (root : CType) (registry : gmap string CType)
           (css : option nat) :=
  Walk fuel (expand VString newInst fuel (env root registry) css).

Definition convert := conv VNil GoSprint orderedKeys parseFragment.

End Ex.

(** * Properties *)

Section Properties.

Context {Value : Type}.
Context (nilValue : Value) (stringValue : string → Value).
Context (Sprint : Value → string).
Context {CompData : Type} {error : Type} {Writer : Type}.
Context (OrderedKeys : gmap string Value → list string).
Context (New : @ComponentType Value CompData error → gmap string Value →
               option (@ComponentInst Value CompData error) * option error).
Context (ParseFragment : string → html.Heap → html.Heap * list nat * option error).
Context (sinkErr : list (@RenderCall Writer) → option error).
Context (atom_Style : N).

Local Abbreviation VGNode := (@VGNode Value).
Local Abbreviation StaticHTMLEnv := (@StaticHTMLEnv Value CompData error Writer).
Local Abbreviation ConvState := (@ConvState error).
Local Abbreviation ConvEvent := (@ConvEvent error).
Local Abbreviation World := (@World Value Writer).
Local Abbreviation instProps := (instProps stringValue).
Local Abbreviation propsGet := (propsGet nilValue).
Local Abbreviation propAttr := (propAttr nilValue Sprint).
Local Abbreviation propAttrLoop := (propAttrLoop nilValue Sprint).
Local Abbreviation convAttrs := (convAttrs nilValue Sprint OrderedKeys).
Local Abbreviation overridden := (overridden nilValue Sprint).
Local Abbreviation appended := (appended nilValue Sprint).
Local Abbreviation mergeKeys := (mergeKeys nilValue Sprint).
Local Abbreviation overwritten := (overwritten Sprint).
Local Abbreviation newAttrs := (newAttrs Sprint).
Local Abbreviation mergeSpec := (mergeSpec Sprint).
Local Abbreviation expand := (expand stringValue New).
Local Abbreviation conv := (conv nilValue Sprint OrderedKeys ParseFragment).
Local Abbreviation convInner := (convInner ParseFragment).
Local Abbreviation parses := (parses ParseFragment).
Local Abbreviation convInfo := (convInfo nilValue Sprint OrderedKeys).
Local Abbreviation html_Render := (html_Render sinkErr).
Local Abbreviation renderStyle := (renderStyle sinkErr atom_Style).
Local Abbreviation renderTree :=
  (renderTree nilValue Sprint OrderedKeys ParseFragment sinkErr).
Local Abbreviation renderOutput :=
  (renderOutput nilValue Sprint OrderedKeys ParseFragment sinkErr atom_Style).
Local Abbreviation Render :=
  (Render nilValue stringValue Sprint OrderedKeys New ParseFragment sinkErr
          atom_Style).

(** ** Instantiation properties *)

Lemma foldl_mergeStaticAttr (attrs : list VGAttribute.t) (m : gmap string Value) :
  foldl (mergeStaticAttr stringValue) m attrs
  = m ∪ list_to_map ((λ a, (VGAttribute.Key a, stringValue (VGAttribute.Val a)))
                       <$> attrs).
Proof.
  revert m. induction attrs as [|a attrs IH]; intros m; simpl.
  - by rewrite (right_id_L ∅ (∪)).
  - rewrite IH. apply map_eq. intros k.
    unfold mergeStaticAttr.
    rewrite !lookup_union.
    destruct (decide (VGAttribute.Key a = k)) as [<-|Hne].
    + rewrite lookup_insert_eq.
      destruct (m !! VGAttribute.Key a) as [x|] eqn:Hm.
      * rewrite Hm. by rewrite !union_Some_l.
      * rewrite lookup_insert_eq. rewrite (left_id_L None union).
        by rewrite union_Some_l.
    + rewrite (lookup_insert_ne _ _ _ _ Hne).
      destruct (m !! VGAttribute.Key a) as [x|] eqn:Hm; [done|].
      by rewrite (lookup_insert_ne _ _ _ _ Hne).
Qed.

(** C5.  The properties handed to a new component instance are the node's
    properties, extended with the node's static attributes (boxed as
    strings) at the keys that carry no property: as a map, the left-biased
    union of the properties with the attributes.  Read key by key: a key
    that is a property key keeps the property's value whatever the
    attributes say, any other key takes the value of the first attribute of
    that key, if there is one. *)
Theorem instProps_props_take_precedence (vgn : VGNode) :
  instProps vgn
  = Props_ vgn
    ∪ list_to_map ((λ a, (VGAttribute.Key a, stringValue (VGAttribute.Val a)))
                     <$> Attr vgn)
  ∧ (∀ k, instProps vgn !! k
          = match Props_ vgn !! k with
            | Some x => Some x
            | None =>
              (λ a, stringValue (VGAttribute.Val a))
                <$> (snd <$> list_find (λ a, VGAttribute.Key a = k) (Attr vgn))
            end).
Proof.
  assert (Heq : instProps vgn
    = Props_ vgn
      ∪ list_to_map ((λ a, (VGAttribute.Key a, stringValue (VGAttribute.Val a)))
                       <$> Attr vgn))
    by apply foldl_mergeStaticAttr.
  split; [exact Heq|]. rewrite Heq. intros k. rewrite lookup_union.
  destruct (Props_ vgn !! k) as [x|] eqn:Hk.
  - by rewrite union_Some_l.
  - rewrite (left_id_L None union).
    clear. induction (Attr vgn) as [|a attrs IH]; [done|].
    csimpl. destruct (decide (VGAttribute.Key a = k)) as [Heq|Hne].
    + subst k. by rewrite lookup_insert_eq.
    + rewrite (lookup_insert_ne _ _ _ _ Hne), IH.
      by destruct (list_find _ attrs) as [[i b]|].
Qed.

(** ** Attributes of an output node *)

Lemma findKey_None (k : string) (l : list html.Attribute.t) :
  findKey k l = None ↔ k ∉ html.Attribute.Key <$> l.
Proof.
  induction l as [|a l IH]; csimpl.
  - split; [intros _; apply not_elem_of_nil|done].
  - destruct (decide (html.Attribute.Key a = k)) as [<-|Hne].
    + split; [done|]. intros []. apply elem_of_cons. by left.
    + rewrite not_elem_of_cons, <- IH.
      destruct (findKey k l) as [j|]; (split; [done|]); [by intros [_ ?]|done].
Qed.

Lemma findKey_Some (k : string) (l : list html.Attribute.t) (i : nat) :
  findKey k l = Some i →
  ∃ a, l !! i = Some a ∧ html.Attribute.Key a = k.
Proof.
  revert i. induction l as [|a l IH]; intros i; csimpl; [done|].
  destruct (decide (html.Attribute.Key a = k)) as [<-|Hne].
  - intros [= <-]. by exists a.
  - destruct (findKey k l) as [j|] eqn:Hj; [|done].
    intros [= <-]. by apply IH.
Qed.

Lemma findKey_keys (k : string) (l l' : list html.Attribute.t) :
  html.Attribute.Key <$> l = html.Attribute.Key <$> l' →
  findKey k l = findKey k l'.
Proof.
  revert l'. induction l as [|a l IH]; intros [|a' l']; csimpl; try done.
  intros [= Ha Hl]. rewrite Ha. by rewrite (IH l' Hl).
Qed.

Lemma findKey_app (k : string) (l l' : list html.Attribute.t) :
  findKey k (l ++ l')
  = match findKey k l with
    | Some i => Some i
    | None => (λ j, length l + j) <$> findKey k l'
    end.
Proof.
  induction l as [|a l IH]; csimpl.
  - by destruct (findKey k l').
  - destruct (decide (html.Attribute.Key a = k)); [done|].
    rewrite IH. destruct (findKey k l); [done|].
    by destruct (findKey k l').
Qed.

Lemma overridden_Key props keys attrs i a :
  html.Attribute.Key (overridden props keys attrs i a) = html.Attribute.Key a.
Proof. unfold overridden. by case_bool_decide. Qed.

Lemma imap_overridden_keys props keys attrs (l : list html.Attribute.t) :
  html.Attribute.Key <$> imap (overridden props keys attrs) l
  = html.Attribute.Key <$> l.
Proof.
  apply list_eq. intros i.
  rewrite !list_lookup_fmap, list_lookup_imap.
  destruct (l !! i); [|done]. simpl. by rewrite overridden_Key.
Qed.

Lemma appended_keys props keys attrs k :
  k ∈ html.Attribute.Key <$> appended props keys attrs →
  k ∈ keys ∧ k ∉ html.Attribute.Key <$> attrs.
Proof.
  unfold appended. rewrite <- list_fmap_compose.
  intros (k' & -> & Hk')%list_elem_of_fmap.
  by apply list_elem_of_filter in Hk' as [? ?].
Qed.

Lemma propAttrLoop_mergeKeys props (keys : list string)
      (attrs : list html.Attribute.t) :
  NoDup keys → propAttrLoop props keys attrs = mergeKeys props keys attrs.
Proof.
  unfold propAttrLoop, mergeKeys.
  induction keys as [|k keys IH] using rev_ind; intros Hnd.
  - simpl. unfold appended. simpl. rewrite (right_id_L [] (++)).
    apply list_eq. intros i. rewrite list_lookup_imap.
    destruct (attrs !! i) as [a|]; [|done]. simpl. unfold overridden.
    rewrite bool_decide_eq_false_2; [done|]. intros [[]%not_elem_of_nil _].
  - apply NoDup_app in Hnd as (Hnd & Hk & _).
    assert (Hnk : k ∉ keys) by (intros Hin; apply (Hk k Hin); by left).
    rewrite foldl_snoc, (IH Hnd). clear IH. unfold propAttr at 1.
    rewrite findKey_app.
    rewrite (findKey_keys k _ attrs) by apply imap_overridden_keys.
    destruct (findKey k attrs) as [i|] eqn:Hfind.
    + destruct (findKey_Some _ _ _ Hfind) as (a & Ha & Hka).
      assert (Hin : k ∈ html.Attribute.Key <$> attrs).
      { apply list_elem_of_fmap. exists a. split; [done|].
        by apply list_elem_of_lookup_2 in Ha. }
      assert (Hi : i < length (imap (overridden props keys attrs) attrs)).
      { rewrite length_imap. by apply lookup_lt_Some in Ha. }
      rewrite lookup_app_l by done. rewrite list_lookup_imap, Ha. simpl.
      rewrite insert_app_l by done. f_equal.
      * apply list_eq. intros j.
        destruct (decide (i = j)) as [<-|Hij].
        -- rewrite list_lookup_insert_eq by done.
           rewrite list_lookup_imap, Ha. simpl. f_equal.
           unfold overridden. rewrite Hka, Hfind.
           rewrite bool_decide_eq_false_2 by (intros [? _]; done).
           rewrite bool_decide_eq_true_2; [done|].
           split; [|done]. apply elem_of_app. right. by apply list_elem_of_singleton.
        -- rewrite list_lookup_insert_ne by done.
           rewrite !list_lookup_imap.
           destruct (attrs !! j) as [b|] eqn:Hb; [|done]. simpl. f_equal.
           unfold overridden. erewrite bool_decide_ext; [done|].
           rewrite elem_of_app, list_elem_of_singleton.
           split; [intros [? ?]; split; [by left|done]|].
           intros [[?|Hbk] Hf]; [done|].
           rewrite Hbk, Hfind in Hf. congruence.
      * unfold appended. rewrite filter_app, fmap_app.
        rewrite filter_cons_False by (intros Hn; by apply Hn).
        rewrite filter_nil, fmap_nil. by rewrite (right_id_L [] (++)).
    + apply findKey_None in Hfind.
      destruct (findKey k (appended props keys attrs)) as [j|] eqn:Hj.
      { apply findKey_Some in Hj as (a & Ha & Hka).
        destruct (appended_keys props keys attrs k) as [? _]; [|done].
        apply list_elem_of_fmap. exists a. split; [done|].
        by apply list_elem_of_lookup_2 in Ha. }
      simpl. rewrite <- (assoc_L (++)). f_equal.
      * apply list_eq. intros j. rewrite !list_lookup_imap.
        destruct (attrs !! j) as [b|] eqn:Hb; [|done]. simpl. f_equal.
        unfold overridden. erewrite bool_decide_ext; [done|].
        rewrite elem_of_app, list_elem_of_singleton.
        split; [intros [? ?]; split; [by left|done]|].
        intros [[?|Hbk] Hf]; [done|].
        exfalso. apply Hfind. apply list_elem_of_fmap. exists b. split; [done|].
        by apply list_elem_of_lookup_2 in Hb.
      * unfold appended. rewrite filter_app, fmap_app.
        by rewrite filter_cons_True, filter_nil by done.
Qed.

Lemma overridden_overwritten props (keys : list string)
      (attrs : list html.Attribute.t) (i : nat) (a : html.Attribute.t) :
  (html.Attribute.Key a ∈ keys ↔ is_Some (props !! html.Attribute.Key a)) →
  overridden props keys attrs i a = overwritten props attrs i a.
Proof.
  intros Hk. unfold overridden, overwritten, propsGet.
  destruct (props !! html.Attribute.Key a) as [v|] eqn:Hv; simpl.
  - assert (Hin : html.Attribute.Key a ∈ keys) by (apply Hk; by eexists).
    destruct (decide (findKey (html.Attribute.Key a) attrs = Some i)).
    + by rewrite bool_decide_eq_true_2.
    + rewrite bool_decide_eq_false_2; [done|]. by intros [_ ?].
  - rewrite bool_decide_eq_false_2; [done|].
    intros [Hin _]. apply Hk in Hin. by destruct Hin.
Qed.

Lemma appended_newAttrs props (keys : list string)
      (attrs : list html.Attribute.t) :
  (∀ k, k ∈ keys → is_Some (props !! k)) →
  appended props keys attrs = newAttrs props keys attrs.
Proof.
  unfold appended, newAttrs, propsGet.
  induction keys as [|k keys IH]; intros Hk; [done|].
  assert (Hkeys : ∀ k', k' ∈ keys → is_Some (props !! k'))
    by (intros k' Hk'; apply Hk; by right).
  destruct (Hk k) as [v Hv]; [by left|]. cbn [omap list_omap]. rewrite Hv.
  destruct (decide (k ∈ html.Attribute.Key <$> attrs)) as [Hin|Hin].
  - rewrite filter_cons_False by (intros Hn; by apply Hn). by apply IH.
  - rewrite filter_cons_True by done. csimpl. rewrite Hv. simpl.
    f_equal. by apply IH.
Qed.

Lemma appended_Key props (keys : list string)
      (attrs : list html.Attribute.t) :
  html.Attribute.Key <$> appended props keys attrs
  = filter (λ k, k ∉ html.Attribute.Key <$> attrs) keys.
Proof.
  unfold appended. rewrite <- list_fmap_compose.
  induction (filter (λ k, k ∉ html.Attribute.Key <$> attrs) keys)
    as [|k l IH]; [done|].
  csimpl. by rewrite IH.
Qed.


(** ** The splice *)

Lemma vchain_insert_setParent (h : gmap nat VGNode) (a : nat) (v : VGNode)
      (x : option nat) (p : option nat) (l : list nat) :
  h !! a = Some v →
  vchain h p l → vchain (<[a := setParent v x]> h) p l.
Proof.
  intros Ha. induction 1 as [|b w l Hb _ IH]; [constructor|].
  destruct (decide (a = b)) as [->|Hne].
  - rewrite Ha in Hb. injection Hb as ->.
    apply (vchain_cons _ b (setParent w x)); [apply lookup_insert_eq|done].
  - apply (vchain_cons _ b w); [by rewrite lookup_insert_ne|done].
Qed.

Lemma vchain_ext (h h' : gmap nat VGNode) (p : option nat) (l : list nat) :
  vchain h p l →
  (∀ a v, a ∈ l → h !! a = Some v →
          ∃ v', h' !! a = Some v' ∧ NextSibling v' = NextSibling v) →
  vchain h' p l.
Proof.
  induction 1 as [|a v l Ha _ IH]; intros Hext; [constructor|].
  destruct (Hext a v) as (v' & Hv' & Hnext); [apply elem_of_cons; by left|done|].
  apply (vchain_cons _ a v'); [done|]. rewrite Hnext. apply IH.
  intros b w Hb. apply Hext. apply elem_of_cons; by right.
Qed.

Lemma reparent_chain (vgn : nat) (cs : list nat) :
  ∀ (fuel : nat) (cn : option nat) (h : gmap nat VGNode),
  vchain h cn cs → length cs ≤ fuel →
  ∃ h', reparent fuel cn vgn h = Done h'
        ∧ ∀ a, h' !! a = if decide (a ∈ cs)
                         then (λ v, setParent v (Some vgn)) <$> h !! a
                         else h !! a.
Proof.
  induction cs as [|c cs IH]; intros fuel cn h Hch Hlen.
  - inversion Hch; subst. exists h. split; [by destruct fuel|].
    intros a. rewrite decide_False; [done|]. apply not_elem_of_nil.
  - inversion Hch as [|c' v l Hc Hch']; subst.
    destruct fuel as [|fuel]; [simpl in Hlen; lia|]. simpl in Hlen.
    apply (vchain_insert_setParent h c v (Some vgn)) in Hch'; [|done].
    destruct (IH fuel _ _ Hch') as (h' & Hrun & Hlook); [lia|].
    exists h'. split.
    + cbn [reparent]. unfold deref. rewrite Hc. cbn [mbind outcome_bind].
      rewrite lookup_insert_eq. exact Hrun.
    + intros a. rewrite Hlook. destruct (decide (a = c)) as [->|Hne].
      * rewrite lookup_insert_eq, Hc.
        rewrite (decide_True (P := c ∈ c :: cs)) by (apply elem_of_cons; by left).
        by destruct (decide (c ∈ cs)).
      * rewrite lookup_insert_ne by done.
        destruct (decide (a ∈ cs)) as [Hin|Hin].
        -- by rewrite decide_True by (apply elem_of_cons; by right).
        -- rewrite decide_False; [done|]. rewrite not_elem_of_cons. done.
Qed.

(** C2.  Splicing the replacement root [cdom] into the matched node [vgn],
    when the children of [cdom] form a sibling chain [cs] that ends in nil
    and does not pass through [vgn] itself: the splice returns; [vgn] keeps
    its parent, previous sibling and next sibling; every node of [cs] now
    has [vgn] as its parent; every other field of [vgn] (kind, atom, tag,
    namespace, attributes, properties, raw markup, first and last child) is
    the one of [cdom]; the children of [vgn] are the chain [cs]; and no node
    other than [vgn] and the nodes of [cs] is touched. *)
Theorem splice_keeps_position_takes_content
        (fuel vgn cdom : nat) (h : gmap nat VGNode) (old cd : VGNode)
        (cs : list nat) :
  h !! vgn = Some old →
  h !! cdom = Some cd →
  vchain h (FirstChild cd) cs →
  vgn ∉ cs →
  length cs ≤ fuel →
  ∃ h' v',
    splice fuel vgn (Some cdom) h = Done h'
    ∧ h' !! vgn = Some v'
    ∧ Parent v' = Parent old
    ∧ PrevSibling v' = PrevSibling old
    ∧ NextSibling v' = NextSibling old
    ∧ (∀ c, c ∈ cs → ∃ cv, h' !! c = Some cv ∧ Parent cv = Some vgn)
    ∧ Type_ v' = Type_ cd ∧ DataAtom v' = DataAtom cd ∧ Data v' = Data cd
    ∧ Namespace v' = Namespace cd ∧ Attr v' = Attr cd
    ∧ Props_ v' = Props_ cd ∧ InnerHTML v' = InnerHTML cd
    ∧ FirstChild v' = FirstChild cd ∧ LastChild v' = LastChild cd
    ∧ vchain h' (FirstChild v') cs
    ∧ (∀ a, a ≠ vgn → a ∉ cs → h' !! a = h !! a).
Proof.
  intros Hvgn Hcdom Hch Hnin Hlen.
  destruct (reparent_chain vgn cs fuel _ h Hch Hlen) as (h1 & Hrun & Hlook).
  assert (Hold : h1 !! vgn = Some old).
  { rewrite Hlook. by rewrite decide_False. }
  assert (Hcd : ∃ cd1, h1 !! cdom = Some cd1
                       ∧ (cd1 = cd ∨ cd1 = setParent cd (Some vgn))).
  { rewrite Hlook, Hcdom. destruct (decide (cdom ∈ cs)); eauto. }
  destruct Hcd as (cd1 & Hcd1 & Hcd1eq).
  set (v' := setNextSibling
               (setPrevSibling (setParent cd1 (Parent old)) (PrevSibling old))
               (NextSibling old)).
  exists (<[vgn := v']> h1), v'.
  assert (Hfields : Type_ v' = Type_ cd ∧ DataAtom v' = DataAtom cd
                    ∧ Data v' = Data cd ∧ Namespace v' = Namespace cd
                    ∧ Attr v' = Attr cd ∧ Props_ v' = Props_ cd
                    ∧ InnerHTML v' = InnerHTML cd
                    ∧ FirstChild v' = FirstChild cd
                    ∧ LastChild v' = LastChild cd).
  { destruct Hcd1eq as [-> | ->]; by repeat split. }
  destruct Hfields as (?&?&?&?&?&?&?&HFC&?).
  split.
  { unfold splice, deref. rewrite Hcdom. cbn [mbind outcome_bind].
    rewrite Hrun. cbn [mbind outcome_bind]. rewrite Hcd1. cbn [mbind outcome_bind].
    by rewrite Hold. }
  split; [apply lookup_insert_eq|].
  do 3 (split; [done|]).
  split.
  { intros c Hc. assert (c ≠ vgn) by (intros ->; done).
    rewrite lookup_insert_ne by done. rewrite Hlook, decide_True by done.
    assert (Hcin : is_Some (h !! c)).
    { clear -Hch Hc. induction Hch as [|a v l Ha _ IH]; [by apply not_elem_of_nil in Hc|].
      apply elem_of_cons in Hc as [->|Hc]; eauto. }
    destruct Hcin as [cv Hcv]. rewrite Hcv. by eexists. }
  do 9 (split; [done|]).
  split.
  { rewrite HFC. apply (vchain_ext h); [done|].
    intros a v Ha Hv. assert (a ≠ vgn) by (intros ->; done).
    exists (setParent v (Some vgn)). split; [|done].
    rewrite lookup_insert_ne by done. by rewrite Hlook, Hv, decide_True. }
  intros a Hne Hnin'. rewrite lookup_insert_ne by done.
  rewrite Hlook. by rewrite decide_False.
Qed.

(** ** Style aggregation *)

Lemma keeps_refl (h : gmap nat VGNode) : keeps h h.
Proof. intros a v Ha. by exists v. Qed.

Lemma keeps_trans (h1 h2 h3 : gmap nat VGNode) :
  keeps h1 h2 → keeps h2 h3 → keeps h1 h3.
Proof.
  intros H12 H23 a v Ha.
  destruct (H12 a v Ha) as (v2 & Hv2 & Hd2 & Hf2).
  destruct (H23 a v2 Hv2) as (v3 & Hv3 & Hd3 & Hf3).
  exists v3. split; [done|]. split; congruence.
Qed.

Lemma keeps_insert (h : gmap nat VGNode) (a : nat) (v v' : VGNode) :
  h !! a = Some v → Data v' = Data v → FirstChild v' = FirstChild v →
  keeps h (<[a := v']> h).
Proof.
  intros Ha Hd Hf b w Hb. destruct (decide (a = b)) as [->|Hne].
  - exists v'. rewrite lookup_insert_eq. split; [done|]. split; congruence.
  - exists w. by rewrite lookup_insert_ne.
Qed.

Lemma AppendChild_keeps (n c la : nat) (h h' : gmap nat VGNode) (nn : VGNode) :
  h !! n = Some nn → LastChild nn = Some la →
  AppendChild (Some n) (Some c) h = Done h' → keeps h h'.
Proof.
  intros Hn Hla. unfold AppendChild, deref. rewrite Hn. cbn [mbind outcome_bind].
  rewrite Hla.
  destruct (h !! la) as [ln|] eqn:Hln; [|done]. cbn [mbind outcome_bind].
  set (h1 := <[la := setNextSibling ln (Some c)]> h).
  assert (H1 : keeps h h1) by (by apply (keeps_insert _ _ ln)).
  destruct (h1 !! n) as [nn1|] eqn:Hn1; [|done]. cbn [mbind outcome_bind].
  set (h2 := <[n := setLastChild nn1 (Some c)]> h1).
  assert (H2 : keeps h1 h2) by (by apply (keeps_insert _ _ nn1)).
  destruct (h2 !! c) as [cn|] eqn:Hc; [|done]. cbn [mbind outcome_bind].
  set (h3 := <[c := setParent cn (Some n)]> h2).
  assert (H3 : keeps h2 h3) by (by apply (keeps_insert _ _ cn)).
  destruct (h3 !! c) as [cn3|] eqn:Hc3; [|done]. cbn [mbind outcome_bind].
  intros [= <-].
  assert (H4 : keeps h3 (<[c := setPrevSibling cn3 (Some la)]> h3))
    by (by apply (keeps_insert _ _ cn3)).
  eauto using keeps_trans.
Qed.

(** C9.  With a nil root style node the aggregation step panics exactly when
    the component's style fragment is non-nil and has a first child (first
    conjunct).  So for an element whose tag is registered, whose instance is
    made and whose builder returns such a fragment, the walk callback, the
    walk that starts at that element and Render on a root build that returns
    that element and a nil style node all panic; and the aggregation step
    can only return, on such a fragment, when the root style node is
    non-nil. *)
Theorem aggregateStyle_nil_root_style_panics
        (fuel : nat) (e : StaticHTMLEnv) (vgn : nat) (h h1 : gmap nat VGNode)
        (v cv : VGNode) (ct : ComponentType) (ci : ComponentInst)
        (cdom : option nat) (ccss f : nat) :
  h !! vgn = Some v →
  Type_ v = ElementNode →
  regLookup (reg e) (Data v) = Some ct →
  New ct (instProps v) = (Some ci, None) →
  BuildVDOM ct (ci_Data ci) h = (h1, cdom, Some ccss, None) →
  h1 !! ccss = Some cv →
  FirstChild cv = Some f →
  (∀ frag (h0 : gmap nat VGNode),
     aggregateStyle (None : option nat) frag h0
     = match frag with
       | None => Done h0
       | Some a =>
         match h0 !! a with
         | None => Panic
         | Some x => if FirstChild x is Some _ then Panic else Done h0
         end
       end)
  ∧ aggregateStyle None (Some ccss) h1 = Panic
  ∧ expand fuel e None vgn h = Panic
  ∧ Walk (S fuel) (expand fuel e None) (Some vgn) h = Panic
  ∧ (∀ root w,
       rootInst e = Some root →
       BuildVDOM (ci_Type root) (ci_Data root) (vheap w)
       = (h, Some vgn, None, None) →
       Render (S fuel) e w = Panic)
  ∧ (∀ css h', aggregateStyle css (Some ccss) h1 = Done h' → css ≠ None).
Proof.
  intros Hv Hty Hreg Hnew Hbuild Hcv Hf.
  assert (Hagg : ∀ frag (h0 : gmap nat VGNode),
     aggregateStyle (None : option nat) frag h0
     = match frag with
       | None => Done h0
       | Some a =>
         match h0 !! a with
         | None => Panic
         | Some x => if FirstChild x is Some _ then Panic else Done h0
         end
       end).
  { intros [a|] h0; [|done]. unfold aggregateStyle, deref.
    destruct (h0 !! a) as [x|]; [|done]. cbn [mbind outcome_bind].
    by destruct (FirstChild x). }
  assert (Hpanic : aggregateStyle None (Some ccss) h1 = Panic).
  { by rewrite Hagg, Hcv, Hf. }
  assert (Hexp : ∀ fuel', expand fuel' e None vgn h = Panic).
  { intros fuel'. unfold expand, deref. rewrite Hv. cbn [mbind outcome_bind].
    rewrite decide_False by (intros Hne; by apply Hne).
    rewrite Hreg, Hnew. cbn [mbind outcome_bind]. rewrite Hbuild.
    by rewrite Hpanic. }
  split; [exact Hagg|]. split; [exact Hpanic|]. split; [apply Hexp|].
  split; [cbn [Walk]; by rewrite Hexp|].
  split.
  - intros root w Hroot Hrb. unfold Render. rewrite Hroot.
    cbn [mbind outcome_bind]. rewrite Hrb. cbn [vheap Walk].
    by rewrite Hexp.
  - intros css h' Hrun ->. by rewrite Hpanic in Hrun.
Qed.

(** ** The style block *)

Lemma renderStyle_block (e : StaticHTMLEnv) (w : World) (ca fa : nat)
      (cv fv : VGNode) :
  vheap w !! ca = Some cv → FirstChild cv = Some fa → vheap w !! fa = Some fv →
  ∃ cssn t hh,
    renderStyle e (Some ca) w
    = Done (sinkErr (written w ++ [mkRenderCall (out e) cssn hh]),
            {| vheap := vheap w; oheap := hh;
               written := written w ++ [mkRenderCall (out e) cssn hh] |})
    ∧ hh !! cssn
      = Some (html.Node.mk None (Some t) (Some t) None None ElementNode
                           atom_Style "style" "" [])
    ∧ hh !! t
      = Some (html.Node.mk (Some cssn) None None None None TextNode
                           0%N (Data fv) "" []).
Proof.
  intros Hca Hfa Hfv.
  set (cssn := fresh (dom (oheap w))).
  set (sn := html.Node.mk None None None None None ElementNode
                          atom_Style "style" "" []).
  set (hh1 := <[cssn := sn]> (oheap w)).
  set (t := fresh (dom hh1)).
  set (tn := html.Node.mk None None None None None TextNode 0%N (Data fv) "" []).
  assert (Hne : t ≠ cssn).
  { intros Heq. apply (is_fresh (dom hh1)). fold t. rewrite Heq.
    unfold hh1. rewrite dom_insert_L.
    apply elem_of_union. left. by apply elem_of_singleton. }
  set (hhF := <[t := html.Node.setPrevSibling
                       (html.Node.setParent tn (Some cssn)) None]>
              (<[t := html.Node.setParent tn (Some cssn)]>
               (<[cssn := html.Node.setLastChild
                            (html.Node.setFirstChild sn (Some t)) (Some t)]>
                (<[cssn := html.Node.setFirstChild sn (Some t)]>
                 (<[t := tn]> hh1))))).
  assert (Happ : html.AppendChild (Some cssn) (Some t) (<[t := tn]> hh1)
                 = Done hhF).
  { assert (H1 : (<[t := tn]> hh1) !! t = Some tn) by apply lookup_insert_eq.
    assert (H2 : (<[t := tn]> hh1) !! cssn = Some sn).
    { rewrite lookup_insert_ne by done. apply lookup_insert_eq. }
    unfold html.AppendChild, deref.
    rewrite H1. cbn [mbind outcome_bind].
    rewrite bool_decide_eq_true_2 by done.
    rewrite H2. cbn [mbind outcome_bind].
    cbn [html.Node.LastChild sn]. cbn [mbind outcome_bind].
    rewrite lookup_insert_eq. cbn [mbind outcome_bind].
    rewrite (lookup_insert_ne _ cssn t) by done.
    rewrite (lookup_insert_ne _ cssn t) by done.
    rewrite H1. cbn [mbind outcome_bind].
    rewrite lookup_insert_eq. cbn [mbind outcome_bind]. done. }
  exists cssn, t, hhF. split.
  - unfold renderStyle, deref. rewrite Hca. cbn [mbind outcome_bind].
    rewrite Hfa, Hfv. cbn [mbind outcome_bind].
    fold cssn sn hh1 t tn. rewrite Happ. done.
  - unfold hhF. split.
    + rewrite lookup_insert_ne by done. rewrite lookup_insert_ne by done.
      by rewrite lookup_insert_eq.
    + by rewrite lookup_insert_eq.
Qed.

(** C3.  When the aggregate style node has a first child at serialization
    time, the style step makes one render call, on a fresh [style] element
    whose only child is a text node holding the data of that first child and
    nothing else; whatever Render then returns, the calls it has added are
    that style call and, behind it, at most the call for the main tree.
    And linking a further fragment into a non-empty aggregate leaves the
    aggregate's first child and its data as they are, so the text emitted is
    the text of the first fragment linked. *)
Theorem style_block_holds_first_fragment_only
        (e : StaticHTMLEnv) (w : World) (ca fa : nat) (cv fv : VGNode) :
  vheap w !! ca = Some cv →
  FirstChild cv = Some fa →
  vheap w !! fa = Some fv →
  ∃ cssn t hh,
    let call := mkRenderCall (out e) cssn hh in
    let w1 := {| vheap := vheap w; oheap := hh;
                 written := written w ++ [call] |} in
    renderStyle e (Some ca) w = Done (sinkErr (written w ++ [call]), w1)
    ∧ hh !! cssn
      = Some (html.Node.mk None (Some t) (Some t) None None ElementNode
                           atom_Style "style" "" [])
    ∧ hh !! t
      = Some (html.Node.mk (Some cssn) None None None None TextNode
                           0%N (Data fv) "" [])
    ∧ (∀ fuel vdom r w2,
         renderOutput fuel e vdom (Some ca) w = Done (r, w2) →
         written w2 = written w ++ [call]
         ∨ ∃ outn s,
             conv fuel (vheap w) vdom
                  {| hheap := hh; ptrMap := ∅; events := [] |}
             = Done (Some outn, None, s)
             ∧ written w2
               = written w ++ [call; mkRenderCall (out e) outn (hheap s)])
    ∧ (∀ c la h',
         LastChild cv = Some la →
         AppendChild (Some ca) (Some c) (vheap w) = Done h' →
         ∃ cv' fv', h' !! ca = Some cv' ∧ FirstChild cv' = Some fa
                    ∧ h' !! fa = Some fv' ∧ Data fv' = Data fv).
Proof.
  intros Hca Hfa Hfv.
  destruct (renderStyle_block e w ca fa cv fv Hca Hfa Hfv)
    as (cssn & t & hh & Hrun & Hcssn & Ht).
  exists cssn, t, hh. cbn zeta. split; [exact Hrun|].
  split; [exact Hcssn|]. split; [exact Ht|]. split.
  - intros fuel vdom r w2. unfold renderOutput. rewrite Hrun.
    cbn [mbind outcome_bind].
    destruct (sinkErr _) as [err|]; [intros [= <- <-]; by left|].
    unfold renderTree. cbn [vheap oheap written].
    destruct (conv fuel (vheap w) vdom _) as [[[outn err] s]| |] eqn:Hconv;
      cbn [mbind outcome_bind]; [|done..].
    destruct err as [err|]; [intros [= <- <-]; by left|].
    unfold html_Render. destruct outn as [outn|]; [|done].
    cbn [mbind outcome_bind written oheap vheap].
    intros Hres. right. exists outn, s. split; [done|].
    rewrite <- (assoc_L (++)) in Hres. cbn [app] in Hres.
    destruct (sinkErr _); by injection Hres as <- <-.
  - intros c la h' Hla Happ.
    pose proof (AppendChild_keeps ca c la _ h' cv Hca Hla Happ) as Hkeep.
    destruct (Hkeep ca cv Hca) as (cv' & Hcv' & _ & Hfc).
    destruct (Hkeep fa fv Hfv) as (fv' & Hfv' & Hd & _).
    exists cv', fv'. rewrite Hfc. done.
Qed.

(** ** The conversion: what a run does to the identity map and the log *)

Lemma allocKeys_app (e1 e2 : list ConvEvent) :
  allocKeys (e1 ++ e2) = allocKeys e1 ++ allocKeys e2.
Proof. apply omap_app. Qed.

Lemma elem_of_allocKeys (a : nat) (evs : list ConvEvent) :
  a ∈ allocKeys evs ↔ ∃ n, EvAlloc a n ∈ evs.
Proof.
  unfold allocKeys. rewrite list_elem_of_omap. split.
  - intros ([b n|b o] & Hin & Heq); [|done]. injection Heq as ->. eauto.
  - intros [n Hin]. by exists (EvAlloc a n).
Qed.

Lemma grows_refl (s : ConvState) : grows s s [].
Proof.
  unfold grows. rewrite (right_id_L [] (++)). split; [done|]. split; [done|].
  split; [clear -s; set_solver|]. split; [constructor|].
  split; intros a; [intros []%not_elem_of_nil|intros n []%not_elem_of_nil].
Qed.

Lemma grows_same (s s' : ConvState) :
  ptrMap s' = ptrMap s → events s' = events s → grows s s' [].
Proof.
  intros Hp He. destruct (grows_refl s) as (?&?&?&?&?&?).
  unfold grows. rewrite Hp, He. done.
Qed.

Lemma grows_trans (s s1 s2 : ConvState) (e1 e2 : list ConvEvent) :
  grows s s1 e1 → grows s1 s2 e2 → grows s s2 (e1 ++ e2).
Proof.
  intros (E1 & S1 & D1 & N1 & F1 & A1) (E2 & S2 & D2 & N2 & F2 & A2).
  unfold grows. rewrite allocKeys_app.
  split; [by rewrite E2, E1, (assoc_L (++))|].
  split; [by trans (ptrMap s1)|].
  split; [rewrite D2, D1, list_to_set_app_L; clear; set_solver|].
  split.
  { apply NoDup_app. split; [done|]. split; [|done].
    intros a Ha1 Ha2. apply F2 in Ha2.
    apply elem_of_allocKeys in Ha1 as [n Hn]. apply A1 in Hn. congruence. }
  split.
  { intros a [Ha|Ha]%elem_of_app; [by apply F1|].
    apply F2 in Ha. destruct (ptrMap s !! a) as [n|] eqn:Hn; [|done].
    eapply lookup_weaken in Hn; [|exact S1]. congruence. }
  intros a n [Ha|Ha]%elem_of_app; [|by apply A2].
  eapply lookup_weaken; [by apply A1|done].
Qed.

Lemma parses_nil (vh : gmap nat VGNode) : parses vh [] None.
Proof.
  unfold parses. split; [intros a e []%not_elem_of_nil|].
  split; [done|]. split; [intros a o []%not_elem_of_nil|].
  intros _ a v []%not_elem_of_nil.
Qed.

Lemma parses_seq (vh : gmap nat VGNode) (e1 e2 : list ConvEvent)
      (err : option error) :
  parses vh e1 None → parses vh e2 err → parses vh (e1 ++ e2) err.
Proof.
  intros (P1 & Q1 & R1 & C1) (P2 & Q2 & R2 & C2). unfold parses.
  split.
  { intros a e [Ha|Ha]%elem_of_app; [|by eapply P2].
    by apply P1 in Ha. }
  split.
  { intros e He. destruct (Q2 e He) as [a Ha]. exists a.
    apply elem_of_app. by right. }
  split.
  { intros a o [Ha|Ha]%elem_of_app; [by apply R1|by apply R2]. }
  intros -> a v. rewrite allocKeys_app.
  intros [Ha|Ha]%elem_of_app Hv Hin; apply elem_of_app;
    [left; by eapply C1|right; by eapply C2].
Qed.

Lemma convLink_rel (vh : gmap nat VGNode)
      (rec : option nat → ConvState →
             outcome (option nat * option error * ConvState))
      (n : nat) (target : option nat)
      (set : html.Node.t → option nat → html.Node.t)
      (s s' : ConvState) (err : option error) :
  (∀ p s r err s', rec p s = Done (r, err, s') →
                   ∃ evs, grows s s' evs ∧ parses vh evs err) →
  convLink rec n target set s = Done (err, s') →
  ∃ evs, grows s s' evs ∧ parses vh evs err.
Proof.
  intros Hrec. unfold convLink.
  destruct (rec target s) as [[[r err1] s1]| |] eqn:Hrun; [|done..].
  cbn [mbind outcome_bind]. intros [= <- <-].
  destruct (Hrec _ _ _ _ _ Hrun) as (evs & Hg & Hp).
  exists evs. split; [|done].
  rewrite <- (right_id_L [] (++) evs).
  eapply grows_trans; [done|]. by apply grows_same.
Qed.

Lemma convInner_rel (vh : gmap nat VGNode) (a : nat) (v : VGNode) (n : nat)
      (s s' : ConvState) (r : option nat) (err : option error) :
  vh !! a = Some v →
  convInner a v n s = Done (r, err, s') →
  ∃ evs, grows s s' evs ∧ allocKeys evs = []
         ∧ (∀ b e, EvParse b (Some e) ∈ evs → err = Some e)
         ∧ (∀ e, err = Some e → EvParse a (Some e) ∈ evs)
         ∧ (∀ b o, EvParse b o ∈ evs →
              ∃ v hh, vh !! b = Some v ∧ InnerHTML v ≠ ""
                      ∧ (ParseFragment (InnerHTML v) hh).2 = o)
         ∧ (err = None → InnerHTML v ≠ "" → EvParse a None ∈ evs)
         ∧ (err = None → r = Some n).
Proof.
  intros Hv. unfold convInner.
  destruct (decide (InnerHTML v = "")) as [Hempty|Hne].
  { intros [= <- <- <-]. exists []. split; [apply grows_refl|].
    split; [done|]. split; [intros b e []%not_elem_of_nil|].
    split; [done|]. split; [intros b o []%not_elem_of_nil|]. done. }
  destruct (ParseFragment (InnerHTML v) (hheap s)) as [[hh innerNs] perr] eqn:Hp.
  assert (Hg : ∀ hh', grows s {| hheap := hh'; ptrMap := ptrMap s;
                                 events := events s ++ [EvParse a perr] |}
                            [EvParse a perr]).
  { intros hh'. unfold grows. cbn [events ptrMap allocKeys omap list_omap].
    split; [done|]. split; [done|]. split; [clear; set_solver|].
    split; [constructor|].
    split; [intros b []%not_elem_of_nil|].
    intros b m [= ]%list_elem_of_singleton. }
  assert (Hlog : ∀ b o, EvParse b o ∈ [EvParse a perr] →
            ∃ v hh, vh !! b = Some v ∧ InnerHTML v ≠ ""
                    ∧ (ParseFragment (InnerHTML v) hh).2 = o).
  { intros b o [= -> ->]%list_elem_of_singleton.
    exists v, (hheap s). by rewrite Hp. }
  destruct perr as [e|].
  - intros [= <- <- <-]. exists [EvParse a (Some e)].
    split; [apply Hg|]. split; [done|].
    split; [by intros b e' [= -> ->]%list_elem_of_singleton|].
    split; [intros e' [= ->]; by apply list_elem_of_singleton|].
    split; [done|]. done.
  - cbn [hheap ptrMap events].
    destruct (appendAll n innerNs hh) as [hh'| |]; [|done..].
    cbn [mbind outcome_bind]. intros [= <- <- <-].
    exists [EvParse a None]. split; [apply Hg|]. split; [done|].
    split; [by intros b e' [= ]%list_elem_of_singleton|].
    split; [done|]. split; [done|].
    split; [intros _ _; by apply list_elem_of_singleton|done].
Qed.

Lemma grows_alloc (s : ConvState) (a n : nat) :
  ptrMap s !! a = None →
  grows s {| hheap := <[n := html.Node.zero]> (hheap s);
             ptrMap := <[a := n]> (ptrMap s);
             events := events s ++ [EvAlloc a n] |}
        [EvAlloc a n].
Proof.
  intros Ha. unfold grows. cbn [events ptrMap allocKeys omap list_omap].
  split; [done|]. split; [by apply insert_subseteq|].
  split; [rewrite dom_insert_L; clear; set_solver|].
  split; [apply NoDup_singleton|].
  split; [by intros b ->%list_elem_of_singleton|].
  intros b m [= -> ->]%list_elem_of_singleton. apply lookup_insert_eq.
Qed.

(** The step shared by the five links in the proofs below: run one
    [convLink], join its log to the log so far. *)
Lemma link_joins (vh : gmap nat VGNode)
      (rec : option nat → ConvState →
             outcome (option nat * option error * ConvState))
      (n : nat) (target : option nat)
      (set : html.Node.t → option nat → html.Node.t)
      (s0 s s' : ConvState) (acc : list ConvEvent) (err : option error) :
  (∀ p s r err s', rec p s = Done (r, err, s') →
                   ∃ evs, grows s s' evs ∧ parses vh evs err) →
  grows s0 s acc → parses vh acc None →
  convLink rec n target set s = Done (err, s') →
  ∃ acc', grows s0 s' acc' ∧ parses vh acc' err.
Proof.
  intros Hrec Hg Hp Hrun.
  destruct (convLink_rel vh rec n target set s s' err Hrec Hrun)
    as (evs & Hg' & Hp').
  exists (acc ++ evs). split; [by eapply grows_trans|by apply parses_seq].
Qed.

Lemma conv_rel (vh : gmap nat VGNode) (fuel : nat) :
  ∀ (p : option nat) (s : ConvState) (r : option nat) (err : option error)
    (s' : ConvState),
  conv fuel vh p s = Done (r, err, s') →
  ∃ evs, grows s s' evs ∧ parses vh evs err
         ∧ (err = None → r = (p ≫= λ a, ptrMap s' !! a))
         ∧ (∀ a, p = Some a → err = None → is_Some r).
Proof.
  induction fuel as [|fuel IH]; intros p s r err s'; [done|].
  cbn [conv]. destruct p as [a|]; cycle 1.
  { intros [= <- <- <-]. exists []. split; [apply grows_refl|].
    split; [apply parses_nil|]. done. }
  destruct (ptrMap s !! a) as [n0|] eqn:Hhit.
  { intros [= <- <- <-]. exists []. split; [apply grows_refl|].
    split; [apply parses_nil|]. split; [done|]. eauto. }
  set (n := fresh (dom (hheap s))).
  pose proof (grows_alloc s a n Hhit) as G0.
  revert G0.
  generalize ({| hheap := <[n := html.Node.zero]> (hheap s);
                 ptrMap := <[a := n]> (ptrMap s);
                 events := events s ++ [EvAlloc a n] |}).
  intros s0 G0. unfold deref.
  destruct (vh !! a) as [v|] eqn:Hv; [|done]. cbn [mbind outcome_bind].
  assert (Hrec : ∀ p s r err s', conv fuel vh p s = Done (r, err, s') →
                   ∃ evs, grows s s' evs ∧ parses vh evs err).
  { intros p1 s1 r1 err1 s1' Hrun.
    destruct (IH _ _ _ _ _ Hrun) as (evs & ? & ? & _). eauto. }
  assert (P0 : parses vh [] None) by apply parses_nil.
  assert (G00 : grows s0 s0 []) by apply grows_refl.
  assert (Hfail : ∀ acc sx e,
            grows s0 sx acc → parses vh acc (Some e) →
            ∃ evs, grows s sx evs ∧ parses vh evs (Some e)
                   ∧ (Some e = None → Some n = (Some a ≫= λ a, ptrMap sx !! a))
                   ∧ (∀ a0, Some a = Some a0 → Some e = None → is_Some (Some n))).
  { intros acc sx e Hg (P1 & P2 & P3 & P4).
    exists ([EvAlloc a n] ++ acc). split; [by eapply grows_trans|].
    split; [|done]. unfold parses. split.
    { intros b e' [Hb|Hb]%elem_of_app; [|by eapply P1].
      by apply list_elem_of_singleton in Hb. }
    split.
    { intros e' He'. destruct (P2 e' He') as [b Hb]. exists b.
      apply elem_of_app. by right. }
    split; [|done].
    intros b o [Hb|Hb]%elem_of_app; [|by eapply P3].
    by apply list_elem_of_singleton in Hb. }
  destruct (convLink (conv fuel vh) n (Parent v) html.Node.setParent s0)
    as [[e1 s1]| |] eqn:L1; [|done..]. cbn [mbind outcome_bind].
  destruct (link_joins vh _ _ _ _ s0 _ _ _ _ Hrec G00 P0 L1) as (a1 & G1 & P1).
  destruct e1 as [e1|]; [intros [= <- <- <-]; by eapply Hfail|].
  destruct (convLink (conv fuel vh) n (FirstChild v) html.Node.setFirstChild s1)
    as [[e2 s2]| |] eqn:L2; [|done..]. cbn [mbind outcome_bind].
  destruct (link_joins vh _ _ _ _ s0 _ _ _ _ Hrec G1 P1 L2) as (a2 & G2 & P2).
  destruct e2 as [e2|]; [intros [= <- <- <-]; by eapply Hfail|].
  destruct (convLink (conv fuel vh) n (LastChild v) html.Node.setLastChild s2)
    as [[e3 s3]| |] eqn:L3; [|done..]. cbn [mbind outcome_bind].
  destruct (link_joins vh _ _ _ _ s0 _ _ _ _ Hrec G2 P2 L3) as (a3 & G3 & P3).
  destruct e3 as [e3|]; [intros [= <- <- <-]; by eapply Hfail|].
  destruct (convLink (conv fuel vh) n (PrevSibling v) html.Node.setPrevSibling s3)
    as [[e4 s4]| |] eqn:L4; [|done..]. cbn [mbind outcome_bind].
  destruct (link_joins vh _ _ _ _ s0 _ _ _ _ Hrec G3 P3 L4) as (a4 & G4 & P4).
  destruct e4 as [e4|]; [intros [= <- <- <-]; by eapply Hfail|].
  destruct (convLink (conv fuel vh) n (NextSibling v) html.Node.setNextSibling s4)
    as [[e5 s5]| |] eqn:L5; [|done..]. cbn [mbind outcome_bind].
  destruct (link_joins vh _ _ _ _ s0 _ _ _ _ Hrec G4 P4 L5) as (a5 & G5 & P5).
  destruct e5 as [e5|]; [intros [= <- <- <-]; by eapply Hfail|].
  intros Hinner.
  destruct (convInner_rel vh a v n _ _ _ _ Hv Hinner)
    as (ei & Gi & Ki & I1 & I2 & I3 & I4 & I5).
  assert (G6 : grows s0 (convInfo v n s5) a5).
  { rewrite <- (right_id_L [] (++) a5). eapply grows_trans; [done|].
    by apply grows_same. }
  pose proof (grows_trans _ _ _ _ _ G0 (grows_trans _ _ _ _ _ G6 Gi)) as G.
  exists ([EvAlloc a n] ++ a5 ++ ei). split; [done|].
  destruct P5 as (Q1 & Q2 & Q3 & Q4).
  split.
  { unfold parses. split.
    { intros b e [Hb|[Hb|Hb]%elem_of_app]%elem_of_app.
      - by apply list_elem_of_singleton in Hb.
      - by apply Q1 in Hb.
      - by eapply I1. }
    split.
    { intros e He. exists a. rewrite !elem_of_app. right. right. by apply I2. }
    split.
    { intros b o [Hb|[Hb|Hb]%elem_of_app]%elem_of_app.
      - by apply list_elem_of_singleton in Hb.
      - by apply Q3.
      - by apply I3. }
    intros -> b w. rewrite !allocKeys_app, Ki, (right_id_L [] (++)).
    cbn [allocKeys omap list_omap app].
    intros [->|Hb]%elem_of_cons Hw Hin;
      apply elem_of_cons; right; apply elem_of_app.
    - right. rewrite Hv in Hw. injection Hw as <-. by apply I4.
    - left. by eapply Q4. }
  destruct G as (_ & _ & _ & _ & _ & GA).
  split.
  - intros ->. rewrite (I5 eq_refl). cbn [mbind option_bind].
    symmetry. apply GA. apply elem_of_app. left. by apply list_elem_of_singleton.
  - intros a0 _ ->. rewrite (I5 eq_refl). eauto.
Qed.

(** ** The conversion: termination *)

Lemma html_AppendChild_fuel (n c : option nat) (h : gmap nat html.Node.t) :
  html.AppendChild n c h ≠ OutOfFuel.
Proof.
  unfold html.AppendChild, deref. destruct c as [ca|]; [|done].
  destruct (h !! ca) as [cn|]; [|done]. cbn [mbind outcome_bind].
  case_bool_decide; [|done]. destruct n as [na|]; [|done].
  destruct (h !! na) as [nn|]; [|done]. cbn [mbind outcome_bind].
  destruct (html.Node.LastChild nn) as [la|].
  - destruct (h !! la) as [ln|]; [|done]. cbn [mbind outcome_bind].
    repeat (match goal with
            | |- context [match ?m !! ?k with _ => _ end] =>
              destruct (m !! k); [|done]; cbn [mbind outcome_bind]
            end). done.
  - cbn [mbind outcome_bind].
    repeat (match goal with
            | |- context [match ?m !! ?k with _ => _ end] =>
              destruct (m !! k); [|done]; cbn [mbind outcome_bind]
            end). done.
Qed.

Lemma appendAll_fuel (n : nat) (cs : list nat) (h : gmap nat html.Node.t) :
  appendAll n cs h ≠ OutOfFuel.
Proof.
  revert h. induction cs as [|c cs IH]; intros h; [done|]. cbn [appendAll].
  pose proof (html_AppendChild_fuel (Some n) (Some c) h) as Hc.
  destruct (html.AppendChild (Some n) (Some c) h); [|done..].
  cbn [mbind outcome_bind]. apply IH.
Qed.

Lemma convInner_fuel (a : nat) (v : VGNode) (n : nat) (s : ConvState) :
  convInner a v n s ≠ OutOfFuel
  ∧ (InnerHTML v = "" → convInner a v n s = Done (Some n, None, s)).
Proof.
  unfold convInner. destruct (decide (InnerHTML v = "")); [done|].
  split; [|done].
  destruct (ParseFragment _ _) as [[hh ns] [e|]]; [done|].
  cbn [hheap]. pose proof (appendAll_fuel n ns hh) as Hc.
  by destruct (appendAll n ns hh).
Qed.

Lemma unconverted_le (vh : gmap nat VGNode) (m m' : gmap nat nat) :
  m ⊆ m' → size (dom vh ∖ dom m') ≤ size (dom vh ∖ dom m).
Proof.
  intros Hsub. apply subseteq_size. apply subseteq_dom in Hsub.
  clear -Hsub. set_solver.
Qed.

Lemma unconverted_lt (vh : gmap nat VGNode) (m : gmap nat nat) (a n : nat) :
  is_Some (vh !! a) → m !! a = None →
  size (dom vh ∖ dom (<[a := n]> m)) < size (dom vh ∖ dom m).
Proof.
  intros Hin Hnot. apply subset_size. rewrite dom_insert_L.
  apply elem_of_dom in Hin. apply not_elem_of_dom in Hnot.
  clear -Hin Hnot. set_solver.
Qed.

Lemma convLink_cases
      (rec : option nat → ConvState →
             outcome (option nat * option error * ConvState))
      (n : nat) (target : option nat)
      (set : html.Node.t → option nat → html.Node.t) (s : ConvState)
      (Hyp : Prop) :
  rec target s ≠ OutOfFuel ∧ (Hyp → ∃ r s', rec target s = Done (r, None, s')) →
  convLink rec n target set s ≠ OutOfFuel
  ∧ (Hyp → ∃ s', convLink rec n target set s = Done (None, s')).
Proof.
  intros [Hf Hd]. unfold convLink. split.
  - by destruct (rec target s) as [[[r e] s']| |].
  - intros H. destruct (Hd H) as (r & s' & ->). cbn [mbind outcome_bind]. eauto.
Qed.

(** One of the five links in the proof of [conv_enough]. *)
Local Ltac conv_link Hstep Hnext :=
  match goal with
  | S : ptrMap _ ⊆ ptrMap ?sk |- context [convLink ?rec ?n ?t ?set ?sk] =>
    let Hf := fresh "Hf" in let Hd := fresh "Hd" in
    let L := fresh "L" in let e := fresh "e" in let s' := fresh "s" in
    let S' := fresh "S" in
    destruct (Hstep sk t set S) as [Hf Hd];
    [ repeat first [ apply list_elem_of_here | apply list_elem_of_further ] | ];
    destruct (convLink rec n t set sk) as [[e s']| |] eqn:L;
    [ | split; [done|]; intros Hcl Hno _;
        by destruct (Hd (conj Hcl Hno)) as [? ?]
      | done ];
    cbn [mbind outcome_bind];
    destruct e as [e|];
    [ split; [done|]; intros Hcl Hno _;
      by destruct (Hd (conj Hcl Hno)) as [? ?] | ];
    pose proof (Hnext _ _ _ _ _ S L) as S'; clear Hf Hd S
  end.

Lemma conv_enough (vh : gmap nat VGNode) (fuel : nat) :
  ∀ (p : option nat) (s : ConvState),
  size (dom vh ∖ dom (ptrMap s)) < fuel →
  conv fuel vh p s ≠ OutOfFuel
  ∧ (closed vh → (∀ a v, vh !! a = Some v → InnerHTML v = "") →
     (∀ b, p = Some b → is_Some (vh !! b)) →
     ∃ r s', conv fuel vh p s = Done (r, None, s')).
Proof.
  induction fuel as [|fuel IH]; intros p s Hsize; [lia|].
  cbn [conv]. destruct p as [a|]; [|split; [done|eauto]].
  destruct (ptrMap s !! a) as [n0|] eqn:Hhit; [split; [done|eauto]|].
  set (n := fresh (dom (hheap s))).
  unfold deref. destruct (vh !! a) as [v|] eqn:Hv; cycle 1.
  { split; [done|]. intros _ _ Hin. destruct (Hin a eq_refl) as [? ?]. congruence. }
  cbn [mbind outcome_bind].
  pose proof (unconverted_lt vh (ptrMap s) a n (mk_is_Some _ _ Hv) Hhit) as Hlt0.
  set (s0 := {| hheap := <[n := html.Node.zero]> (hheap s);
                ptrMap := <[a := n]> (ptrMap s);
                events := events s ++ [EvAlloc a n] |}).
  assert (Hlt : size (dom vh ∖ dom (ptrMap s0)) < fuel)
    by (unfold s0; cbn [ptrMap]; lia).
  clearbody s0. clear Hlt0.
  assert (Hrec : ∀ p s r err s', conv fuel vh p s = Done (r, err, s') →
                   ∃ evs, grows s s' evs ∧ parses vh evs err).
  { intros p1 s1 r1 err1 s1' Hrun.
    destruct (conv_rel vh fuel _ _ _ _ _ Hrun) as (evs & ? & ? & _). eauto. }
  assert (Hstep : ∀ sk target set,
            ptrMap s0 ⊆ ptrMap sk →
            target ∈ [Parent v; FirstChild v; LastChild v; PrevSibling v;
                      NextSibling v] →
            convLink (conv fuel vh) n target set sk ≠ OutOfFuel
            ∧ (closed vh ∧ (∀ a v, vh !! a = Some v → InnerHTML v = "") →
               ∃ s', convLink (conv fuel vh) n target set sk = Done (None, s'))).
  { intros sk target set Hsub Htarget. apply convLink_cases.
    pose proof (unconverted_le vh _ _ Hsub) as Hle.
    destruct (IH target sk) as [Hf Hd]; [lia|]. split; [done|].
    intros [Hcl Hno]. apply Hd; [done..|].
    intros b ->. by eapply Hcl. }
  assert (Hnext : ∀ sk sk' target set e,
            ptrMap s0 ⊆ ptrMap sk →
            convLink (conv fuel vh) n target set sk = Done (e, sk') →
            ptrMap s0 ⊆ ptrMap sk').
  { intros sk sk' target set e Hsub Hrun.
    destruct (convLink_rel vh _ _ _ _ _ _ _ Hrec Hrun) as (evs & Hg & _).
    destruct Hg as (_ & Hsub' & _). by trans (ptrMap sk). }
  assert (S0 : ptrMap s0 ⊆ ptrMap s0) by done.
  do 5 conv_link Hstep Hnext.
  match goal with
  | |- context [convInner a v n ?sk] =>
    destruct (convInner_fuel a v n sk) as [Hf Hd]
  end.
  split; [done|]. intros _ Hno _. rewrite (Hd (Hno _ _ Hv)). eauto.
Qed.

(** A budget that suffices can be raised without changing the result. *)
Lemma convLink_budget
      (rec rec' : option nat → ConvState →
                  outcome (option nat * option error * ConvState))
      (n : nat) (target : option nat)
      (set : html.Node.t → option nat → html.Node.t) (s : ConvState) :
  (rec target s ≠ OutOfFuel → rec' target s = rec target s) →
  convLink rec n target set s ≠ OutOfFuel →
  convLink rec' n target set s = convLink rec n target set s.
Proof.
  unfold convLink. intros Hrec Hne.
  destruct (rec target s) as [x| |] eqn:Hr; [|by rewrite Hrec..|done].
  by rewrite Hrec.
Qed.

Local Ltac budget_link IH :=
  match goal with
  | |- context [convLink (conv (S ?fuel) ?vh) ?n ?t ?set ?sk] =>
    let L := fresh "L" in let e := fresh "e" in let s' := fresh "s" in
    rewrite (convLink_budget (conv fuel vh) (conv (S fuel) vh) n t set sk);
    [ | intros ?; by apply IH
      | intros L; rewrite L in *; done ];
    destruct (convLink (conv fuel vh) n t set sk) as [[e s']| |] eqn:L;
    [ | done.. ];
    cbn [mbind outcome_bind] in *;
    destruct e as [e|]; [done|]
  end.

Lemma conv_S (vh : gmap nat VGNode) (fuel : nat) (p : option nat)
      (s : ConvState) :
  conv (S fuel) vh p s
  = match p with
    | None => Done (None, None, s)
    | Some a =>
      match ptrMap s !! a with
      | Some n => Done (Some n, None, s)
      | None =>
        let n := fresh (dom (hheap s)) in
        let s := {| hheap := <[n := html.Node.zero]> (hheap s);
                    ptrMap := <[a := n]> (ptrMap s);
                    events := events s ++ [EvAlloc a n] |} in
        v ← deref vh a;
        '(err, s) ← convLink (conv fuel vh) n (Parent v) html.Node.setParent s;
        match err with
        | Some err => Done (Some n, Some err, s)
        | None =>
        '(err, s) ← convLink (conv fuel vh) n (FirstChild v)
                             html.Node.setFirstChild s;
        match err with
        | Some err => Done (Some n, Some err, s)
        | None =>
        '(err, s) ← convLink (conv fuel vh) n (LastChild v)
                             html.Node.setLastChild s;
        match err with
        | Some err => Done (Some n, Some err, s)
        | None =>
        '(err, s) ← convLink (conv fuel vh) n (PrevSibling v)
                             html.Node.setPrevSibling s;
        match err with
        | Some err => Done (Some n, Some err, s)
        | None =>
        '(err, s) ← convLink (conv fuel vh) n (NextSibling v)
                             html.Node.setNextSibling s;
        match err with
        | Some err => Done (Some n, Some err, s)
        | None => convInner a v n (convInfo v n s)
        end end end end end
      end
    end.
Proof. reflexivity. Qed.

Lemma conv_budget_S (vh : gmap nat VGNode) (fuel : nat) :
  ∀ (p : option nat) (s : ConvState),
  conv fuel vh p s ≠ OutOfFuel → conv (S fuel) vh p s = conv fuel vh p s.
Proof.
  induction fuel as [|fuel IH]; intros p s; [done|].
  rewrite (conv_S vh (S fuel)), (conv_S vh fuel).
  destruct p as [a|]; [|done].
  destruct (ptrMap s !! a) as [n0|]; [done|]. cbn zeta.
  generalize (fresh (dom (hheap s))). intros n.
  generalize ({| hheap := <[n := html.Node.zero]> (hheap s);
                 ptrMap := <[a := n]> (ptrMap s);
                 events := events s ++ [EvAlloc a n] |}). intros s0.
  unfold deref. destruct (vh !! a) as [v|]; [|done]. cbn [mbind outcome_bind].
  intros Hne.
  do 5 budget_link IH. done.
Qed.

Lemma conv_budget (vh : gmap nat VGNode) (fuel fuel' : nat)
      (p : option nat) (s : ConvState) :
  conv fuel vh p s ≠ OutOfFuel → fuel ≤ fuel' →
  conv fuel' vh p s = conv fuel vh p s.
Proof.
  intros Hne Hle. induction Hle as [|fuel' Hle IH]; [done|].
  rewrite conv_budget_S; [done|]. by rewrite IH.
Qed.

(** ** Children of an output node *)

Lemma hchain_det (h : gmap nat html.Node.t) (p : option nat) (l1 l2 : list nat) :
  hchain h p l1 → hchain h p l2 → l1 = l2.
Proof.
  intros H1. revert l2. induction H1 as [|a n l Ha _ IH]; intros l2 H2.
  - by inversion H2.
  - inversion H2 as [|a' n' l' Ha' Hl']; subst.
    rewrite Ha in Ha'. injection Ha' as <-. f_equal. by apply IH.
Qed.

Lemma hchain_suffix (h : gmap nat html.Node.t) (p : option nat)
      (l1 : list nat) (a : nat) (l2 : list nat) :
  hchain h p (l1 ++ a :: l2) → hchain h (Some a) (a :: l2).
Proof.
  revert p. induction l1 as [|b l1 IH]; intros p Hch; simpl in Hch.
  - by inversion Hch; subst.
  - inversion Hch; subst. by eapply IH.
Qed.

Lemma hchain_NoDup (h : gmap nat html.Node.t) (p : option nat) (l : list nat) :
  hchain h p l → NoDup l.
Proof.
  induction 1 as [|a n l Ha Hch IH]; constructor; [|done].
  intros (l1 & l2 & ->)%list_elem_of_split.
  pose proof (hchain_suffix _ _ _ _ _ Hch) as Hsuf.
  assert (Hall : hchain h (Some a) (a :: l1 ++ a :: l2))
    by (by apply (hchain_cons _ a n)).
  pose proof (hchain_det _ _ _ _ Hsuf Hall) as Heq.
  apply (f_equal length) in Heq. simpl in Heq.
  rewrite length_app in Heq. simpl in Heq. lia.
Qed.

Lemma hchain_lookup (h : gmap nat html.Node.t) (p : option nat) (l : list nat)
      (a : nat) :
  hchain h p l → a ∈ l → is_Some (h !! a).
Proof.
  induction 1 as [|b n l Hb _ IH]; [by intros ?%not_elem_of_nil|].
  intros [->|Hin]%elem_of_cons; eauto.
Qed.

(** A chain survives a change of the heap that keeps the next sibling of
    all its nodes but the last, and is prolonged by [c] when the last one
    is made to point to a node [c] that has no next sibling. *)
Lemma hchain_snoc (h h' : gmap nat html.Node.t) (p : option nat)
      (l : list nat) (c : nat) (cn : html.Node.t) :
  hchain h p l → l ≠ [] →
  h' !! c = Some cn → html.Node.NextSibling cn = None →
  (∀ a n, a ∈ l → last l ≠ Some a → h !! a = Some n →
          ∃ n', h' !! a = Some n'
                ∧ html.Node.NextSibling n' = html.Node.NextSibling n) →
  (∀ a, last l = Some a →
        ∃ n', h' !! a = Some n' ∧ html.Node.NextSibling n' = Some c) →
  hchain h' p (l ++ [c]).
Proof.
  intros Hch. pose proof (hchain_NoDup _ _ _ Hch) as Hnd. revert Hnd.
  induction Hch as [|a n l Ha Hch IH]; intros Hnd Hne Hc Hcn Hkeep Hlast; [done|].
  apply NoDup_cons in Hnd as [Hnin Hnd].
  destruct l as [|b l].
  - destruct (Hlast a eq_refl) as (n' & Hn' & Hnext).
    apply (hchain_cons _ a n'); [done|]. rewrite Hnext.
    apply (hchain_cons _ c cn); [done|]. rewrite Hcn. constructor.
  - destruct (Hkeep a n) as (n' & Hn' & Hnext);
      [apply elem_of_cons; by left| |done|].
    { rewrite last_cons_cons. intros Hl. apply Hnin.
      by apply last_Some_elem_of. }
    apply (hchain_cons _ a n'); [done|]. rewrite Hnext.
    apply IH; [done|done|done|done| |].
    + intros a' m Ha' Hl'. apply Hkeep; [apply elem_of_cons; by right|].
      by rewrite last_cons_cons.
    + intros a' Hl'. apply Hlast. by rewrite last_cons_cons.
Qed.

Lemma html_AppendChild_children (n c : nat) (h : gmap nat html.Node.t)
      (cs : list nat) :
  children h n cs → n ∉ cs → c ∉ cs → c ≠ n → detached h c →
  ∃ h', html.AppendChild (Some n) (Some c) h = Done h'
        ∧ children h' n (cs ++ [c])
        ∧ (∃ cn', h' !! c = Some cn' ∧ html.Node.Parent cn' = Some n)
        ∧ (∀ b, b ≠ n → b ≠ c → b ∉ cs → h' !! b = h !! b)
        ∧ (∀ b nb, b ∈ cs → h !! b = Some nb →
             ∃ nb', h' !! b = Some nb'
                    ∧ html.Node.Parent nb' = html.Node.Parent nb).
Proof.
  intros (nn & Hn & Hch & Hlast) Hncs Hccs Hcn (cn & Hc & Hp & Hps & Hns).
  unfold html.AppendChild, deref. rewrite Hc. cbn [mbind outcome_bind].
  rewrite bool_decide_eq_true_2 by done. rewrite Hn. cbn [mbind outcome_bind].
  rewrite Hlast. destruct (last cs) as [la|] eqn:Hla.
  - assert (Hlain : la ∈ cs) by (by apply last_Some_elem_of).
    assert (la ≠ n) by (intros ->; done).
    assert (la ≠ c) by (intros ->; done).
    destruct (hchain_lookup _ _ _ la Hch Hlain) as [ln Hln].
    rewrite Hln. cbn [mbind outcome_bind].
    rewrite (lookup_insert_ne _ la n) by done. rewrite Hn.
    cbn [mbind outcome_bind].
    rewrite (lookup_insert_ne _ n c) by done.
    rewrite (lookup_insert_ne _ la c) by done. rewrite Hc.
    cbn [mbind outcome_bind]. rewrite lookup_insert_eq.
    cbn [mbind outcome_bind]. rewrite insert_insert_eq.
    eexists. split; [reflexivity|].
    set (cn' := html.Node.setPrevSibling (html.Node.setParent cn (Some n))
                                         (Some la)).
    split.
    { exists (html.Node.setLastChild nn (Some c)). split.
      { rewrite lookup_insert_ne by done. apply lookup_insert_eq. }
      split; [|by rewrite last_snoc].
      apply (hchain_snoc h _ _ _ c cn'); [done| |apply lookup_insert_eq|done| |].
      - intros ->. done.
      - intros a m Ha Hnl Hm. exists m. split; [|done].
        assert (a ≠ c) by (intros ->; done).
        assert (a ≠ n) by (intros ->; done).
        assert (a ≠ la) by (intros ->; rewrite Hla in Hnl; done).
        by rewrite !lookup_insert_ne by done.
      - intros a Ha. rewrite Hla in Ha. injection Ha as <-.
        exists (html.Node.setNextSibling ln (Some c)). split; [|done].
        rewrite !lookup_insert_ne by done. apply lookup_insert_eq. }
    split; [exists cn'; split; [apply lookup_insert_eq|done]|].
    split.
    { intros b ? ? Hb. assert (b ≠ la) by (intros ->; done).
      by rewrite !lookup_insert_ne by done. }
    intros b nb Hb Hnb.
    assert (b ≠ c) by (intros ->; done).
    assert (b ≠ n) by (intros ->; done).
    rewrite !lookup_insert_ne by done.
    destruct (decide (b = la)) as [->|Hne].
    + rewrite lookup_insert_eq. rewrite Hln in Hnb. injection Hnb as <-. eauto.
    + rewrite lookup_insert_ne by done. eauto.
  - apply last_None in Hla. subst cs. cbn [mbind outcome_bind].
    rewrite lookup_insert_eq. cbn [mbind outcome_bind].
    rewrite insert_insert_eq.
    rewrite (lookup_insert_ne _ n c) by done. rewrite Hc.
    cbn [mbind outcome_bind]. rewrite lookup_insert_eq.
    cbn [mbind outcome_bind]. rewrite insert_insert_eq.
    eexists. split; [reflexivity|].
    set (cn' := html.Node.setPrevSibling (html.Node.setParent cn (Some n)) None).
    split.
    { exists (html.Node.setLastChild (html.Node.setFirstChild nn (Some c)) (Some c)).
      split; [rewrite lookup_insert_ne by done; apply lookup_insert_eq|].
      split; [|done]. cbn [html.Node.FirstChild html.Node.setLastChild
                           html.Node.setFirstChild app].
      apply (hchain_cons _ c cn'); [apply lookup_insert_eq|].
      unfold cn'. cbn. rewrite Hns. constructor. }
    split; [exists cn'; split; [apply lookup_insert_eq|done]|].
    split; [intros b ? ? _; by rewrite !lookup_insert_ne by done|].
    intros b nb []%not_elem_of_nil.
Qed.

Lemma appendAll_children (n : nat) (ns : list nat) :
  ∀ (h : gmap nat html.Node.t) (cs : list nat),
  children h n cs → n ∉ cs → n ∉ ns → NoDup ns →
  (∀ c, c ∈ ns → (c ∉ cs) ∧ detached h c) →
  ∃ h', appendAll n ns h = Done h'
        ∧ children h' n (cs ++ ns)
        ∧ (∀ c, c ∈ ns → ∃ cn, h' !! c = Some cn ∧ html.Node.Parent cn = Some n)
        ∧ (∀ b nb, b ∈ cs → h !! b = Some nb →
             ∃ nb', h' !! b = Some nb'
                    ∧ html.Node.Parent nb' = html.Node.Parent nb).
Proof.
  induction ns as [|c ns IH]; intros h cs Hch Hncs Hnns Hnd Hns.
  - exists h. split; [done|]. rewrite (right_id_L [] (++)).
    split; [done|]. split; [intros c []%not_elem_of_nil|eauto].
  - apply not_elem_of_cons in Hnns as [Hnc Hnns].
    apply NoDup_cons in Hnd as [Hcns Hnd].
    destruct (Hns c) as [Hccs Hdet]; [apply elem_of_cons; by left|].
    destruct (html_AppendChild_children n c h cs Hch Hncs Hccs)
      as (h1 & Hrun & Hch1 & (cn1 & Hc1 & Hp1) & Hframe & Hpar); [done..|].
    destruct (IH h1 (cs ++ [c])) as (h' & Hrun' & Hch' & Hins & Hpar');
      [done| | done | done | |].
    { rewrite not_elem_of_app, list_elem_of_singleton. done. }
    { intros c' Hc'. destruct (Hns c') as [Hc'cs (cn' & Hcn' & Hd')];
        [apply elem_of_cons; by right|].
      assert (c' ≠ c) by (intros ->; done).
      assert (c' ≠ n) by (intros ->; done).
      split; [rewrite not_elem_of_app, list_elem_of_singleton; done|].
      exists cn'. by rewrite Hframe. }
    exists h'. split; [cbn [appendAll]; by rewrite Hrun|].
    split; [by rewrite <- (assoc_L (++)) in Hch'|].
    split.
    + intros c' [->|Hc']%elem_of_cons; [|by apply Hins].
      destruct (Hpar' c cn1) as (cn2 & Hcn2 & Hp2); [|done|].
      { apply elem_of_app. right. by apply list_elem_of_singleton. }
      exists cn2. split; [done|]. congruence.
    + intros b nb Hb Hnb. destruct (Hpar b nb Hb Hnb) as (nb1 & Hnb1 & Hpb1).
      destruct (Hpar' b nb1) as (nb2 & Hnb2 & Hpb2); [|done|].
      { apply elem_of_app. by left. }
      exists nb2. split; [done|]. congruence.
Qed.

(** ** The conversion: the main statements *)

(** C6.  In a run of conv that returns, from any state of the identity map:
    the run makes at most one output node per input node (the input nodes of
    the logged allocations are pairwise distinct) and none for an input node
    that already had one; entries of the identity map are only added, never
    changed, one per allocation, and the entry is the node allocated;
    without an error the result is the entry of the argument, so every link
    that leads to an input node yields the same output node; and a nil
    argument gives a nil result and leaves the state alone. *)
Theorem conv_one_output_node_per_input_node
        (vh : gmap nat VGNode) (fuel : nat) (p : option nat) (s s' : ConvState)
        (r : option nat) (err : option error) :
  conv fuel vh p s = Done (r, err, s') →
  (∃ evs,
     events s' = events s ++ evs
     ∧ NoDup (allocKeys evs)
     ∧ (∀ a, a ∈ allocKeys evs → ptrMap s !! a = None)
     ∧ ptrMap s ⊆ ptrMap s'
     ∧ dom (ptrMap s') = dom (ptrMap s) ∪ list_to_set (allocKeys evs)
     ∧ (∀ a n, EvAlloc a n ∈ evs → ptrMap s' !! a = Some n))
  ∧ (err = None → r = (p ≫= λ a, ptrMap s' !! a))
  ∧ (∀ a, p = Some a → err = None → is_Some r)
  ∧ (p = None → r = None ∧ err = None ∧ s' = s)
  ∧ (∀ fuel' s0, conv (S fuel') vh None s0 = Done (None, None, s0)).
Proof.
  intros Hrun.
  destruct (conv_rel vh fuel p s r err s' Hrun)
    as (evs & (E & S & D & N & F & A) & _ & Hr & Hs).
  split; [exists evs; done|]. split; [done|]. split; [done|].
  split; [|done].
  intros ->. destruct fuel as [|fuel]; [done|]. cbn [conv] in Hrun.
  by injection Hrun as <- <- <-.
Qed.

(** C7.  With a budget above the number of input nodes that have no entry
    in the identity map, conv is never cut short: it returns or it panics,
    and a larger budget gives the same result.  On a heap whose links all
    lead to nodes of the heap and whose nodes carry no raw markup it
    returns, without an error.  The reason is the registration before the
    recursion: an argument that has its entry is answered from the identity
    map, whatever the budget and whatever links lead back to it. *)
Theorem conv_terminates
        (vh : gmap nat VGNode) (fuel : nat) (p : option nat) (s : ConvState) :
  size (dom vh ∖ dom (ptrMap s)) < fuel →
  (conv fuel vh p s = Panic ∨ ∃ r err s', conv fuel vh p s = Done (r, err, s'))
  ∧ (∀ fuel', fuel ≤ fuel' → conv fuel' vh p s = conv fuel vh p s)
  ∧ (closed vh → (∀ a v, vh !! a = Some v → InnerHTML v = "") →
     (∀ b, p = Some b → is_Some (vh !! b)) →
     ∃ r s', conv fuel vh p s = Done (r, None, s'))
  ∧ (∀ a n fuel', ptrMap s !! a = Some n →
                  conv (S fuel') vh (Some a) s = Done (Some n, None, s)).
Proof.
  intros Hsize. destruct (conv_enough vh fuel p s Hsize) as [Hf Hd].
  split.
  { destruct (conv fuel vh p s) as [[[r err] s']| |]; [right; eauto|by left|done]. }
  split; [intros fuel' Hle; by apply conv_budget|].
  split; [exact Hd|].
  intros a n fuel' Ha. cbn [conv]. by rewrite Ha.
Qed.

(** C8.  For the conv call of Render (empty identity map, empty log): a
    parse that fails is the error conv returns, and Render returns it
    without a render call for the main tree; an error conv returns is a
    failed parse; every parse is the parse of the non-empty raw markup of a
    node of the heap; without an error every converted node with non-empty
    raw markup was parsed.  At a node whose markup fails to parse, conv
    returns nil and the parser's error.  At a node whose markup parses into
    detached nodes that are new to the output node [n], the nodes are
    appended, in order, behind the children [n] has, with [n] as their
    parent. *)
Theorem rawMarkup_is_parsed_and_appended
        (fuel : nat) (e : StaticHTMLEnv) (vdom : option nat) (w : World)
        (r : option nat) (err : option error) (s' : ConvState) :
  conv fuel (vheap w) vdom {| hheap := oheap w; ptrMap := ∅; events := [] |}
  = Done (r, err, s') →
  (∀ a x, EvParse a (Some x) ∈ events s' →
     err = Some x
     ∧ renderTree fuel e vdom w
       = Done (Some x, {| vheap := vheap w; oheap := hheap s';
                          written := written w |}))
  ∧ (∀ x, err = Some x → ∃ a, EvParse a (Some x) ∈ events s')
  ∧ (∀ a o, EvParse a o ∈ events s' →
       ∃ v hh, vheap w !! a = Some v ∧ InnerHTML v ≠ ""
               ∧ (ParseFragment (InnerHTML v) hh).2 = o)
  ∧ (err = None →
     ∀ a v, a ∈ allocKeys (events s') → vheap w !! a = Some v →
            InnerHTML v ≠ "" → EvParse a None ∈ events s')
  ∧ (∀ a (v : VGNode) n (s : ConvState) hh innerNs x,
       InnerHTML v ≠ "" →
       ParseFragment (InnerHTML v) (hheap s) = (hh, innerNs, Some x) →
       convInner a v n s
       = Done (None, Some x,
               {| hheap := hh; ptrMap := ptrMap s;
                  events := events s ++ [EvParse a (Some x)] |}))
  ∧ (∀ a (v : VGNode) n (s : ConvState) hh innerNs cs,
       InnerHTML v ≠ "" →
       ParseFragment (InnerHTML v) (hheap s) = (hh, innerNs, None) →
       children hh n cs → n ∉ cs → n ∉ innerNs → NoDup innerNs →
       (∀ c, c ∈ innerNs → (c ∉ cs) ∧ detached hh c) →
       ∃ hh',
         convInner a v n s
         = Done (Some n, None,
                 {| hheap := hh'; ptrMap := ptrMap s;
                    events := events s ++ [EvParse a None] |})
         ∧ children hh' n (cs ++ innerNs)
         ∧ (∀ c, c ∈ innerNs →
              ∃ cn, hh' !! c = Some cn ∧ html.Node.Parent cn = Some n)).
Proof.
  intros Hrun.
  destruct (conv_rel _ _ _ _ _ _ _ Hrun)
    as (evs & (E & _) & (P1 & P2 & P3 & P4) & _).
  cbn [events app] in E. rewrite E.
  split.
  { intros a x Hin. pose proof (P1 a x Hin) as ->. split; [done|].
    unfold renderTree. by rewrite Hrun. }
  split; [done|]. split; [done|]. split; [done|]. split.
  - intros a v n s hh innerNs x Hne Hparse. unfold convInner.
    rewrite decide_False by done. by rewrite Hparse.
  - intros a v n s hh innerNs cs Hne Hparse Hch Hncs Hnns Hnd Hns.
    destruct (appendAll_children n innerNs hh cs Hch Hncs Hnns Hnd Hns)
      as (hh' & Happ & Hch' & Hpar & _).
    exists hh'. split; [|done]. unfold convInner.
    rewrite decide_False by done. rewrite Hparse. cbn [hheap ptrMap events].
    by rewrite Happ.
Qed.

(** ** The environment *)

(** C10.  An environment made from a nil registry is the environment made
    from an empty registry; its registry finds no tag, so the walk callback
    reads the node and leaves it as it is, Render runs as it does on the
    empty registry, and registering a component type on it returns (no
    write to a nil map) and makes exactly that tag known. *)
Theorem NewStaticHTMLEnv_nil_registry
        (out : Writer) (rootInst : option ComponentInst) :
  NewStaticHTMLEnv out rootInst None = NewStaticHTMLEnv out rootInst (Some ∅)
  ∧ (∀ tag, regLookup (reg (NewStaticHTMLEnv out rootInst None)) tag = None)
  ∧ (∀ fuel css vgn h,
       expand fuel (NewStaticHTMLEnv out rootInst None) css vgn h
       = deref h vgn ≫= λ _, Done (None, h))
  ∧ (∀ fuel w, Render fuel (NewStaticHTMLEnv out rootInst None) w
               = Render fuel (NewStaticHTMLEnv out rootInst (Some ∅)) w)
  ∧ (∀ tag ct,
       ∃ e', RegisterComponentType (NewStaticHTMLEnv out rootInst None) tag ct
             = Done e'
             ∧ ∀ tag', regLookup (reg e') tag'
                       = if decide (tag' = tag) then Some ct else None).
Proof.
  split; [reflexivity|]. split; [intros tag; apply lookup_empty|].
  split.
  { intros fuel css vgn h. unfold expand, deref.
    destruct (h !! vgn) as [v|]; [|done]. simpl.
    destruct (decide (Type_ v ≠ ElementNode)); [done|].
    by rewrite lookup_empty. }
  split; [reflexivity|].
  intros tag ct. eexists. split; [reflexivity|]. simpl.
  intros tag'. destruct (decide (tag' = tag)) as [->|Hne].
  - apply lookup_insert_eq.
  - rewrite lookup_insert_ne by done. apply lookup_empty.
Qed.

(** ** Render and the error of the walk *)

(** Whatever error the walk returns, Render goes on to the output steps
    with the tree as the walk left it. *)
Lemma Render_continues_after_walk_error
      (fuel : nat) (e : StaticHTMLEnv) (w : World) (c : ComponentInst)
      (vh vh' : gmap nat VGNode) (vdom css : option nat) (x : option error) :
  rootInst e = Some c →
  BuildVDOM (ci_Type c) (ci_Data c) (vheap w) = (vh, vdom, css, None) →
  Walk fuel (expand fuel e css) vdom vh = Done (x, vh') →
  Render fuel e w
  = renderOutput fuel e vdom css
                 {| vheap := vh'; oheap := oheap w; written := written w |}.
Proof.
  intros Hroot Hbuild Hwalk. unfold Render. rewrite Hroot.
  cbn [mbind outcome_bind]. rewrite Hbuild. cbn [vheap oheap written].
  by rewrite Hwalk.
Qed.

(** * Further properties of the code *)

(** ** Registration *)

(** X1.  [RegisterComponentType] panics exactly on an environment whose
    registry is the nil map; otherwise it returns an environment in which
    the tag is bound to the new type (an earlier binding of the tag is
    replaced), every other tag is bound as before, and the root instance
    and the writer are the same.  On an environment made by
    [NewStaticHTMLEnv] it always returns. *)
Theorem RegisterComponentType_binds_tag
        (e : StaticHTMLEnv) (tagName : string) (ct : ComponentType) :
  match RegisterComponentType e tagName ct with
  | Done e' =>
    reg e ≠ None
    ∧ (∀ tag, regLookup (reg e') tag
              = if decide (tag = tagName) then Some ct
                else regLookup (reg e) tag)
    ∧ rootInst e' = rootInst e ∧ out e' = out e
  | Panic => reg e = None
  | OutOfFuel => False
  end
  ∧ (∀ (w : Writer) ri components,
       ∃ e', RegisterComponentType (NewStaticHTMLEnv w ri components) tagName ct
             = Done e'
             ∧ ∀ tag, regLookup (reg e') tag
                      = if decide (tag = tagName) then Some ct
                        else regLookup components tag).
Proof.
  assert (Hlook : ∀ (m : gmap string ComponentType) tag,
            <[tagName := ct]> m !! tag
            = if decide (tag = tagName) then Some ct else m !! tag).
  { intros m tag. destruct (decide (tag = tagName)) as [->|Hne].
    - apply lookup_insert_eq.
    - by rewrite lookup_insert_ne. }
  split.
  - unfold RegisterComponentType. destruct (reg e) as [m|]; [|done].
    split; [done|]. split; [|done]. intros tag. apply Hlook.
  - intros w ri [m|]; (eexists; split; [reflexivity|]); intros tag;
      cbn [reg regLookup]; rewrite Hlook; [done|].
    by rewrite lookup_empty.
Qed.

(** ** The walk callback *)

(** X7.  An error of the walk callback is the error of [New] or of the
    component's [BuildVDOM], for the component type registered under the
    tag of an element node.  When it is the error of [New], the builder was
    not run and the heap is as before; when it is the builder's, the heap is
    as the builder left it: no style is aggregated and nothing is spliced. *)
Theorem expand_error_is_instantiation_or_build_error
        (fuel : nat) (e : StaticHTMLEnv) (css : option nat) (vgn : nat)
        (h h' : gmap nat VGNode) (x : error) :
  expand fuel e css vgn h = Done (Some x, h') →
  ∃ v ct,
    h !! vgn = Some v ∧ Type_ v = ElementNode
    ∧ regLookup (reg e) (Data v) = Some ct
    ∧ ((New ct (instProps v)).2 = Some x ∧ h' = h
       ∨ ∃ ci cdom ccss,
           New ct (instProps v) = (Some ci, None)
           ∧ BuildVDOM ct (ci_Data ci) h = (h', cdom, ccss, Some x)).
Proof.
  unfold expand, deref. destruct (h !! vgn) as [v|]; [|done].
  cbn [mbind outcome_bind].
  destruct (decide (Type_ v ≠ ElementNode)) as [|Hty]; [done|].
  apply dec_stable in Hty.
  destruct (regLookup (reg e) (Data v)) as [ct|] eqn:Hreg; [|done].
  destruct (New ct (instProps v)) as [compInst [nerr|]] eqn:Hnew.
  { intros [= -> ->]. exists v, ct. do 3 (split; [done|]). left.
    by rewrite Hnew. }
  destruct compInst as [ci|]; [|done]. cbn [mbind outcome_bind].
  destruct (BuildVDOM ct (ci_Data ci) h) as [[[h1 cdom] ccss] [berr|]] eqn:Hb.
  { intros [= -> ->]. exists v, ct. do 3 (split; [done|]). right.
    by exists ci, cdom, ccss. }
  destruct (aggregateStyle css ccss h1) as [h2| |]; [|done..].
  cbn [mbind outcome_bind].
  by destruct (splice fuel vgn cdom h2) as [h3| |].
Qed.

Lemma Walk_S (fuel : nat)
      (f : nat → gmap nat VGNode → outcome (option error * gmap nat VGNode))
      (a : nat) (h : gmap nat VGNode) :
  Walk (S fuel) f (Some a) h
  = '(err, h) ← f a h;
    match err with
    | Some err => Done (Some err, h)
    | None => v ← deref h a; walkSiblings fuel f (FirstChild v) h
    end.
Proof. reflexivity. Qed.

Lemma walkSiblings_S (fuel : nat)
      (f : nat → gmap nat VGNode → outcome (option error * gmap nat VGNode))
      (a : nat) (h : gmap nat VGNode) :
  walkSiblings (S fuel) f (Some a) h
  = '(err, h) ← Walk fuel f (Some a) h;
    match err with
    | Some err => Done (Some err, h)
    | None => v ← deref h a; walkSiblings fuel f (NextSibling v) h
    end.
Proof. reflexivity. Qed.

(** X6.  On a heap in which no element node carries a registered tag, the
    callback returns nil and leaves the heap as it is at every node, and so
    does the walk from any node when it returns; Render on a root build
    that yields such a heap is the output step on the tree as built. *)
Theorem Walk_without_match_changes_nothing
        (e : StaticHTMLEnv) (h : gmap nat VGNode) :
  (∀ a v, h !! a = Some v → Type_ v = ElementNode →
          regLookup (reg e) (Data v) = None) →
  (∀ fuel css vgn r h',
     expand fuel e css vgn h = Done (r, h') → r = None ∧ h' = h)
  ∧ (∀ fuel fuel' css p r h',
       Walk fuel (expand fuel' e css) p h = Done (r, h') → r = None ∧ h' = h)
  ∧ (∀ fuel (w w' : World) c vdom css r,
       rootInst e = Some c →
       BuildVDOM (ci_Type c) (ci_Data c) (vheap w) = (h, vdom, css, None) →
       Render fuel e w = Done (r, w') →
       renderOutput fuel e vdom css
                    {| vheap := h; oheap := oheap w; written := written w |}
       = Done (r, w')).
Proof.
  intros Hno.
  assert (Hexp : ∀ fuel css vgn r h',
            expand fuel e css vgn h = Done (r, h') → r = None ∧ h' = h).
  { intros fuel css vgn r h'. unfold expand, deref.
    destruct (h !! vgn) as [v|] eqn:Hv; [|done]. cbn [mbind outcome_bind].
    destruct (decide (Type_ v ≠ ElementNode)) as [|Hty];
      [by intros [= <- <-]|].
    apply dec_stable in Hty. rewrite (Hno vgn v Hv Hty).
    by intros [= <- <-]. }
  assert (Hwalk : ∀ fuel fuel' css,
            (∀ p r h', Walk fuel (expand fuel' e css) p h = Done (r, h') →
                       r = None ∧ h' = h)
            ∧ (∀ p r h', walkSiblings fuel (expand fuel' e css) p h
                         = Done (r, h') → r = None ∧ h' = h)).
  { intros fuel fuel' css. induction fuel as [|fuel [IHw IHs]]; [done|].
    split; intros p r h';
      (destruct p as [a|]; [|by intros [= <- <-]]);
      [rewrite Walk_S|rewrite walkSiblings_S].
    - destruct (expand fuel' e css a h) as [[r1 h1]| |] eqn:Hf; [|done..].
      destruct (Hexp _ _ _ _ _ Hf) as [-> ->]. cbn [mbind outcome_bind].
      unfold deref. destruct (h !! a) as [v|]; [|done].
      cbn [mbind outcome_bind]. apply IHs.
    - destruct (Walk fuel (expand fuel' e css) (Some a) h)
        as [[r1 h1]| |] eqn:Hw; [|done..].
      destruct (IHw _ _ _ Hw) as [-> ->]. cbn [mbind outcome_bind].
      unfold deref. destruct (h !! a) as [v|]; [|done].
      cbn [mbind outcome_bind]. apply IHs. }
  split; [exact Hexp|]. split; [intros fuel fuel' css; apply Hwalk|].
  intros fuel w w' c vdom css r Hroot Hbuild. unfold Render. rewrite Hroot.
  cbn [mbind outcome_bind]. rewrite Hbuild. cbn [vheap oheap written].
  destruct (Walk fuel (expand fuel e css) vdom h) as [[r1 h1]| |] eqn:Hw;
    [|done..].
  destruct (proj1 (Hwalk _ _ _) _ _ _ Hw) as [-> ->]. done.
Qed.

(** ** Expansion happens in place *)

Lemma reparent_dom (vgn : nat) (fuel : nat) :
  ∀ (cn : option nat) (h h' : gmap nat VGNode),
  reparent fuel cn vgn h = Done h' → dom h' = dom h.
Proof.
  induction fuel as [|fuel IH]; intros [c|] h h'; cbn [reparent];
    try done; try (by intros [= <-]).
  unfold deref. destruct (h !! c) as [cv|] eqn:Hc; [|done].
  cbn [mbind outcome_bind]. rewrite lookup_insert_eq. cbn [mbind outcome_bind].
  intros Hrun. rewrite (IH _ _ _ Hrun), dom_insert_L.
  apply elem_of_dom_2 in Hc. clear -Hc. set_solver.
Qed.

Lemma insert_dom_same {T : Type} (h : gmap nat T) (a : nat) (x y : T) :
  h !! a = Some x → dom (<[a := y]> h) = dom h.
Proof.
  intros Ha. rewrite dom_insert_L. apply elem_of_dom_2 in Ha.
  clear -Ha. set_solver.
Qed.

(** X10.  The aggregation step and the splice work in place: when they
    return, the heap has exactly the nodes it had, no node is added and
    none is dropped; so after a match the heap holds exactly the nodes the
    builder left. *)
Theorem expansion_step_keeps_the_nodes
        (fuel : nat) (css ccss cdom : option nat) (vgn : nat)
        (h h1 h2 : gmap nat VGNode) :
  aggregateStyle css ccss h = Done h1 →
  splice fuel vgn cdom h1 = Done h2 →
  dom h1 = dom h ∧ dom h2 = dom h.
Proof.
  intros Hagg Hsp.
  assert (H1 : dom h1 = dom h).
  { revert Hagg. unfold aggregateStyle, deref.
    destruct ccss as [ca|]; [|by intros [= <-]].
    destruct (h !! ca) as [cv|]; [|done]. cbn [mbind outcome_bind].
    destruct (FirstChild cv) as [f|]; [|by intros [= <-]].
    unfold AppendChild, deref. destruct css as [na|]; [|done].
    destruct (h !! na) as [nn|] eqn:Hn; [|done]. cbn [mbind outcome_bind].
    assert (Hlast : ∃ ha, match LastChild nn with
                          | Some la =>
                            ln ← match h !! la with
                                 | Some v => Done v | None => Panic end;
                            Done (<[la := setNextSibling ln (Some f)]> h)
                          | None => Done (<[na := setFirstChild nn (Some f)]> h)
                          end = ha
                          ∧ ∀ hx, ha = Done hx → dom hx = dom h).
    { eexists. split; [reflexivity|]. intros hx.
      destruct (LastChild nn) as [la|].
      - destruct (h !! la) as [ln|] eqn:Hl; [|done]. cbn [mbind outcome_bind].
        intros [= <-]. by eapply insert_dom_same.
      - intros [= <-]. by eapply insert_dom_same. }
    destruct Hlast as (ha & -> & Hdom). destruct ha as [hx| |]; [|done..].
    specialize (Hdom hx eq_refl). cbn [mbind outcome_bind].
    destruct (hx !! na) as [nn1|] eqn:Hn1; [|done]. cbn [mbind outcome_bind].
    destruct (<[na:=setLastChild nn1 (Some f)]> hx !! f) as [cn|] eqn:Hf;
      [|done]. cbn [mbind outcome_bind]. rewrite lookup_insert_eq.
    cbn [mbind outcome_bind]. intros [= <-].
    rewrite insert_insert_eq.
    rewrite (insert_dom_same _ _ _ _ Hf), (insert_dom_same _ _ _ _ Hn1). done. }
  split; [exact H1|]. rewrite <- H1. revert Hsp. unfold splice, deref.
  destruct cdom as [ca|]; [|done].
  destruct (h1 !! ca) as [cd|]; [|done]. cbn [mbind outcome_bind].
  destruct (reparent fuel (FirstChild cd) vgn h1) as [hr| |] eqn:Hr; [|done..].
  cbn [mbind outcome_bind]. apply reparent_dom in Hr.
  destruct (hr !! ca) as [cd1|]; [|done]. cbn [mbind outcome_bind].
  destruct (hr !! vgn) as [old|] eqn:Ho; [|done]. cbn [mbind outcome_bind].
  intros [= <-]. by rewrite (insert_dom_same _ _ _ _ Ho).
Qed.

(** ** What Render writes *)

Lemma html_Render_call (w' : Writer) (n : option nat) (w1 w2 : World)
      (r : option error) :
  html_Render w' n w1 = Done (r, w2) →
  ∃ na, n = Some na
        ∧ written w2 = written w1 ++ [mkRenderCall w' na (oheap w1)]
        ∧ r = sinkErr (written w2)
        ∧ vheap w2 = vheap w1 ∧ oheap w2 = oheap w1.
Proof.
  unfold html_Render. destruct n as [na|]; [|done].
  intros [= <- <-]. by exists na.
Qed.

Lemma renderStyle_calls (e : StaticHTMLEnv) (css : option nat) (w w1 : World)
      (r : option error) :
  renderStyle e css w = Done (r, w1) →
  vheap w1 = vheap w
  ∧ (r = None ∧ written w1 = written w
     ∨ ∃ c, written w1 = written w ++ [c] ∧ rc_out c = out e
            ∧ r = sinkErr (written w1)).
Proof.
  unfold renderStyle, deref. destruct css as [ca|]; [|intros [= <- <-]; eauto].
  destruct (vheap w !! ca) as [cv|]; [|done]. cbn [mbind outcome_bind].
  destruct (FirstChild cv) as [fa|]; [|intros [= <- <-]; eauto].
  destruct (vheap w !! fa) as [fv|]; [|done]. cbn [mbind outcome_bind].
  destruct (html.AppendChild _ _ _) as [hh| |]; [|done..].
  cbn [mbind outcome_bind]. intros Hr.
  apply html_Render_call in Hr as (na & _ & Hw & Hs & Hv & _).
  cbn [written vheap] in *. split; [done|]. right. eexists. split; [done|].
  done.
Qed.

Lemma renderTree_calls (fuel : nat) (e : StaticHTMLEnv) (vdom : option nat)
      (w w1 : World) (r : option error) :
  renderTree fuel e vdom w = Done (r, w1) →
  vheap w1 = vheap w
  ∧ (r ≠ None ∧ written w1 = written w
     ∨ ∃ c, written w1 = written w ++ [c] ∧ rc_out c = out e
            ∧ r = sinkErr (written w1)).
Proof.
  unfold renderTree.
  destruct (conv fuel (vheap w) vdom _) as [[[outn err] s]| |]; [|done..].
  cbn [mbind outcome_bind].
  destruct err as [x|]; [intros [= <- <-]; split; [done|]; by left|].
  destruct (html_Render (out e) outn _) as [[r1 w2]| |] eqn:Hr; [|done..].
  cbn [mbind outcome_bind].
  apply html_Render_call in Hr as (na & _ & Hw & Hs & Hv & _).
  cbn [written vheap] in *. intros Hres.
  assert (r = r1 ∧ w1 = w2) as [-> ->].
  { destruct r1; by injection Hres as <- <-. }
  split; [done|]. right. eexists. split; [done|]. done.
Qed.

(** X8.  A Render that returns has written to no writer but its own, at
    most twice (the style block, then the tree).  When it returns nil it
    has made at least one call and the sink accepted the last one.  When
    the root build fails it returns that error and makes no call. *)
Theorem Render_writes_at_most_twice
        (fuel : nat) (e : StaticHTMLEnv) (w w' : World) (r : option error) :
  Render fuel e w = Done (r, w') →
  ∃ calls,
    written w' = written w ++ calls
    ∧ length calls ≤ 2
    ∧ Forall (λ c, rc_out c = out e) calls
    ∧ (r = None → calls ≠ [] ∧ sinkErr (written w') = None)
    ∧ (∀ c x, rootInst e = Some c →
              (BuildVDOM (ci_Type c) (ci_Data c) (vheap w)).2 = Some x →
              r = Some x ∧ calls = []).
Proof.
  unfold Render. destruct (rootInst e) as [c|]; [|done].
  cbn [mbind outcome_bind].
  destruct (BuildVDOM (ci_Type c) (ci_Data c) (vheap w))
    as [[[vh vdom] css] [berr|]] eqn:Hb.
  { intros [= <- <-]. exists []. cbn [written]. rewrite (right_id_L [] (++)).
    split; [done|]. split; [simpl; lia|]. split; [constructor|].
    split; [done|]. intros c' x [= <-] Hx. rewrite Hb in Hx.
    split; [exact Hx|done]. }
  cbn [vheap oheap written].
  destruct (Walk fuel _ vdom vh) as [[werr vh']| |]; [|done..].
  cbn [mbind outcome_bind]. unfold renderOutput.
  destruct (renderStyle e css _) as [[serr w1]| |] eqn:Hs; [|done..].
  cbn [mbind outcome_bind].
  apply renderStyle_calls in Hs as [_ Hs]. cbn [written] in Hs.
  assert (Hroot : ∀ (calls : list (@RenderCall Writer)) c' (x : error),
            Some c = Some c' →
            (BuildVDOM (ci_Type c') (ci_Data c') (vheap w)).2 = Some x →
            r = Some x ∧ calls = []).
  { intros calls c' x [= <-] Hx. rewrite Hb in Hx. discriminate Hx. }
  destruct serr as [x|].
  { intros [= <- <-]. destruct Hs as [[[=] _]|(cl & Hw & Ho & Hx)].
    exists [cl]. split; [done|]. split; [simpl; lia|].
    split; [by constructor|]. split; [done|]. apply Hroot. }
  intros Ht. apply renderTree_calls in Ht as [_ Ht].
  destruct Hs as [[_ Hw1]|(c1 & Hw1 & Ho1 & _)];
    destruct Ht as [[Hr Hw2]|(c2 & Hw2 & Ho2 & Hr)]; rewrite Hw1 in Hw2.
  - exists []. rewrite (right_id_L [] (++)). split; [done|].
    split; [simpl; lia|]. split; [constructor|]. split; [done|]. apply Hroot.
  - exists [c2]. split; [done|]. split; [simpl; lia|].
    split; [by constructor|]. split; [|apply Hroot].
    intros ->. by split.
  - exists [c1]. split; [done|]. split; [simpl; lia|].
    split; [by constructor|]. split; [done|]. apply Hroot.
  - exists [c1; c2]. rewrite <- (assoc_L (++)) in Hw2. split; [done|].
    split; [simpl; lia|]. split; [by repeat constructor|].
    split; [|apply Hroot]. intros ->. by split.
Qed.

(** X9.  When the style aggregate has a first child and the sink rejects
    the style block, Render's output step returns the sink's error with that
    one call made, whatever the tree and whatever the budget (also none):
    the conversion is not started. *)
Theorem rejected_style_block_stops_the_output
        (e : StaticHTMLEnv) (w : World) (ca fa : nat) (cv fv : VGNode) :
  vheap w !! ca = Some cv →
  FirstChild cv = Some fa →
  vheap w !! fa = Some fv →
  ∃ cssn hh,
    ∀ x, sinkErr (written w ++ [mkRenderCall (out e) cssn hh]) = Some x →
         ∀ fuel vdom,
           renderOutput fuel e vdom (Some ca) w
           = Done (Some x,
                   {| vheap := vheap w; oheap := hh;
                      written := written w ++ [mkRenderCall (out e) cssn hh] |}).
Proof.
  intros Hca Hfa Hfv.
  destruct (renderStyle_block e w ca fa cv fv Hca Hfa Hfv)
    as (cssn & t & hh & Hrun & Hcssn & Ht).
  exists cssn, hh. intros x Hx fuel vdom. unfold renderOutput.
  rewrite Hrun, Hx. done.
Qed.

(** ** Converting again *)

(** X4.  After a conversion that returned without an error, converting the
    same node again, or any node for which the run made an output node,
    returns the output node made then, with any budget of one or more, and
    changes neither the output heap nor the identity map nor the log. *)
Theorem conv_again_returns_the_same_node
        (vh : gmap nat VGNode) (fuel : nat) (p : option nat)
        (s s' : ConvState) (r : option nat) :
  conv fuel vh p s = Done (r, None, s') →
  (∀ fuel', conv (S fuel') vh p s' = Done (r, None, s'))
  ∧ (∀ fuel' a n,
       EvAlloc a n ∈ drop (length (events s)) (events s') →
       conv (S fuel') vh (Some a) s' = Done (Some n, None, s')).
Proof.
  intros Hrun.
  destruct (conv_rel vh fuel p s r None s' Hrun)
    as (evs & (E & _ & _ & _ & _ & A) & _ & Hr & Hs).
  split.
  - intros fuel'. cbn [conv]. destruct p as [a|].
    + specialize (Hr eq_refl). cbn [mbind option_bind] in Hr.
      destruct (Hs a eq_refl eq_refl) as [n Hn]. rewrite Hr in Hn.
      by rewrite Hn, Hr, Hn.
    + by rewrite (Hr eq_refl).
  - intros fuel' a n. rewrite E, drop_app_length. intros Hin.
    cbn [conv]. by rewrite (A a n Hin).
Qed.

(** ** More on the attributes of an output node *)

Lemma propAttr_keys_prefix props (attrs : list html.Attribute.t) (k : string) :
  ∃ rest, html.Attribute.Key <$> propAttr props attrs k
          = (html.Attribute.Key <$> attrs) ++ rest
          ∧ (rest = [] ∨ rest = [k] ∧ k ∉ html.Attribute.Key <$> attrs)
          ∧ html.Attribute.Namespace <$> take (length attrs) (propAttr props attrs k)
            = html.Attribute.Namespace <$> attrs.
Proof.
  unfold propAttr. destruct (findKey k attrs) as [i|] eqn:Hf.
  - destruct (findKey_Some _ _ _ Hf) as (a & Ha & Hk). rewrite Ha.
    exists []. rewrite (right_id_L [] (++)). split; [|split; [by left|]].
    + rewrite list_fmap_insert. apply list_insert_id.
      rewrite list_lookup_fmap, Ha. done.
    + rewrite <- (length_insert attrs i
                   (html.Attribute.setVal a (Sprint (propsGet props k)))) at 1.
      rewrite firstn_all, list_fmap_insert. apply list_insert_id.
      rewrite list_lookup_fmap, Ha. done.
  - apply findKey_None in Hf. exists [k]. rewrite fmap_app.
    split; [done|]. split; [by right|].
    by rewrite take_app_length.
Qed.

Lemma findKey_is_Some (k : string) (l : list html.Attribute.t) :
  k ∈ html.Attribute.Key <$> l → is_Some (findKey k l).
Proof.
  intros Hin. destruct (findKey k l) eqn:Hf; [done|].
  by apply findKey_None in Hf.
Qed.

(** The value of the first attribute of key [k], if there is one. *)
Lemma propAttr_first_value props (attrs : list html.Attribute.t) (k k' : string) :
  (λ i, html.Attribute.Val <$> propAttr props attrs k !! i)
    <$> findKey k' (propAttr props attrs k)
  = if decide (k' = k) then Some (Some (Sprint (propsGet props k)))
    else (λ i, html.Attribute.Val <$> attrs !! i) <$> findKey k' attrs.
Proof.
  unfold propAttr. destruct (findKey k attrs) as [i|] eqn:Hf.
  - destruct (findKey_Some _ _ _ Hf) as (a & Ha & Hk). rewrite Ha.
    assert (Hkeys : html.Attribute.Key
                      <$> <[i := html.Attribute.setVal a (Sprint (propsGet props k))]> attrs
                    = html.Attribute.Key <$> attrs).
    { rewrite list_fmap_insert. apply list_insert_id.
      by rewrite list_lookup_fmap, Ha. }
    rewrite (findKey_keys k' _ attrs Hkeys).
    destruct (decide (k' = k)) as [->|Hne].
    + rewrite Hf. cbn [fmap option_fmap option_map].
      rewrite list_lookup_insert_eq by (by apply lookup_lt_Some in Ha). done.
    + destruct (findKey k' attrs) as [j|] eqn:Hj; [|done].
      cbn [fmap option_fmap option_map].
      rewrite list_lookup_insert_ne; [done|]. intros <-.
      destruct (findKey_Some _ _ _ Hj) as (b & Hb & Hkb). congruence.
  - rewrite findKey_app. destruct (decide (k' = k)) as [->|Hne].
    + rewrite Hf. cbn [findKey]. rewrite decide_True by done.
      cbn [fmap option_fmap option_map].
      rewrite lookup_app_r by lia. by rewrite Nat.add_0_r, Nat.sub_diag.
    + destruct (findKey k' attrs) as [j|] eqn:Hj.
      * cbn [fmap option_fmap option_map].
        destruct (findKey_Some _ _ _ Hj) as (b & Hb & _).
        by rewrite lookup_app_l by (by apply lookup_lt_Some in Hb).
      * cbn [findKey]. by rewrite decide_False by done.
Qed.

Lemma propAttr_prefix {B : Type} (f : html.Attribute.t → B) props
      (attrs : list html.Attribute.t) (k : string) :
  (∀ a v, f (html.Attribute.setVal a v) = f a) →
  length attrs ≤ length (propAttr props attrs k)
  ∧ f <$> take (length attrs) (propAttr props attrs k) = f <$> attrs.
Proof.
  intros Hf. unfold propAttr. destruct (findKey k attrs) as [i|] eqn:Hfind.
  - destruct (findKey_Some _ _ _ Hfind) as (a & Ha & Hk). rewrite Ha.
    rewrite length_insert. split; [done|].
    rewrite <- (length_insert attrs i
                 (html.Attribute.setVal a (Sprint (propsGet props k)))) at 1.
    rewrite firstn_all, list_fmap_insert. apply list_insert_id.
    by rewrite list_lookup_fmap, Ha, Hf.
  - rewrite length_app. split; [lia|]. by rewrite take_app_length.
Qed.

Lemma propAttrLoop_prefix {B : Type} (f : html.Attribute.t → B) props
      (keys : list string) :
  (∀ a v, f (html.Attribute.setVal a v) = f a) →
  ∀ attrs : list html.Attribute.t,
  length attrs ≤ length (propAttrLoop props keys attrs)
  ∧ f <$> take (length attrs) (propAttrLoop props keys attrs) = f <$> attrs.
Proof.
  intros Hf. unfold propAttrLoop.
  induction keys as [|k keys IH]; intros attrs; cbn [foldl].
  - split; [done|]. by rewrite firstn_all.
  - destruct (propAttr_prefix f props attrs k Hf) as [Hlen Hpre].
    destruct (IH (propAttr props attrs k)) as [Hlen' Hpre'].
    split; [lia|].
    rewrite <- Hpre. rewrite !fmap_take. rewrite <- Hpre'.
    rewrite fmap_take, take_take. f_equal. lia.
Qed.

Lemma propAttrLoop_first_value props (keys : list string) :
  ∀ (attrs : list html.Attribute.t) (k : string),
  (λ i, html.Attribute.Val <$> propAttrLoop props keys attrs !! i)
    <$> findKey k (propAttrLoop props keys attrs)
  = if decide (k ∈ keys) then Some (Some (Sprint (propsGet props k)))
    else (λ i, html.Attribute.Val <$> attrs !! i) <$> findKey k attrs.
Proof.
  unfold propAttrLoop.
  induction keys as [|k0 keys IH]; intros attrs k; cbn [foldl].
  - rewrite decide_False; [done|]. apply not_elem_of_nil.
  - rewrite IH, propAttr_first_value.
    destruct (decide (k ∈ keys)) as [Hin|Hnin].
    + rewrite decide_True; [done|]. apply elem_of_cons. by right.
    + destruct (decide (k = k0)) as [->|Hne].
      * rewrite decide_True; [done|]. apply elem_of_cons. by left.
      * rewrite decide_False; [done|]. by rewrite not_elem_of_cons.
Qed.

Lemma propAttrLoop_NoDup props (keys : list string) :
  ∀ attrs : list html.Attribute.t,
  NoDup (html.Attribute.Key <$> attrs) →
  NoDup (html.Attribute.Key <$> propAttrLoop props keys attrs).
Proof.
  unfold propAttrLoop.
  induction keys as [|k keys IH]; intros attrs Hnd; cbn [foldl]; [done|].
  apply IH.
  destruct (propAttr_keys_prefix props attrs k) as (rest & -> & Hrest & _).
  destruct Hrest as [->|[-> Hk]]; [by rewrite (right_id_L [] (++))|].
  apply NoDup_app. split; [done|]. split; [|apply NoDup_singleton].
  by intros x Hx ->%list_elem_of_singleton.
Qed.


(** X3.  The merge keeps attribute keys unique: when no key occurs twice
    among the node's attributes, none occurs twice in the merged list,
    whatever [OrderedKeys] lists. *)
Theorem convAttrs_keeps_keys_unique (vgn : VGNode) :
  NoDup (VGAttribute.Key <$> Attr vgn) →
  NoDup (html.Attribute.Key <$> convAttrs vgn []).
Proof.
  intros Hnd. unfold convAttrs. cbn [app]. apply propAttrLoop_NoDup.
  by rewrite <- list_fmap_compose.
Qed.

(** ** The conversion of a heap without raw markup *)

Local Abbreviation converted := (converted nilValue Sprint OrderedKeys).
Local Abbreviation isoRun := (isoRun nilValue Sprint OrderedKeys).
Local Abbreviation isoFrame := (isoFrame nilValue Sprint OrderedKeys).

Lemma allocNodes_app (e1 e2 : list ConvEvent) :
  allocNodes (e1 ++ e2) = allocNodes e1 ++ allocNodes e2.
Proof. apply omap_app. Qed.

Lemma elem_of_allocNodes (n : nat) (evs : list ConvEvent) :
  n ∈ allocNodes evs ↔ ∃ a, EvAlloc a n ∈ evs.
Proof.
  unfold allocNodes. rewrite list_elem_of_omap. split.
  - intros ([b m|b o] & Hin & Heq); [|done]. injection Heq as ->. eauto.
  - intros [a Hin]. by exists (EvAlloc a n).
Qed.

Lemma image_weaken (pm pm' : gmap nat nat) (t : option nat) :
  pm ⊆ pm' → (∀ b, t = Some b → is_Some (pm !! b)) →
  image pm' t = image pm t.
Proof.
  intros Hsub Hreg. destruct t as [b|]; [|done]. cbn.
  destruct (Hreg b eq_refl) as [m Hm]. rewrite Hm.
  by eapply lookup_weaken.
Qed.

Lemma linkOK_weaken (pm pm' : gmap nat nat) tr :
  pm ⊆ pm' → linkOK pm tr → linkOK pm' tr.
Proof.
  intros Hsub [Hr Hreg]. split.
  - by rewrite (image_weaken pm pm').
  - intros b Hb. destruct (Hreg b Hb) as [m Hm]. exists m.
    by eapply lookup_weaken.
Qed.

Lemma converted_weaken (vh : gmap nat VGNode) (pm pm' : gmap nat nat)
      (hh hh' : gmap nat html.Node.t) (a n : nat) :
  pm ⊆ pm' → (∀ x, hh !! n = Some x → hh' !! n = Some x) →
  converted vh pm hh a n → converted vh pm' hh' a n.
Proof.
  intros Hsub Hheap (v & Hv & Hn & Hreg). exists v. split; [done|].
  assert (Himg : ∀ t, t ∈ links v → image pm' t = image pm t).
  { intros t Ht. apply image_weaken; [done|]. intros b ->. by apply Hreg. }
  split.
  - rewrite !Himg; [by apply Hheap|unfold links..];
      repeat first [ apply list_elem_of_here | apply list_elem_of_further ].
  - intros b Hb. destruct (Hreg b Hb) as [m Hm]. exists m.
    by eapply lookup_weaken.
Qed.

Lemma isoFrame_link (vh : gmap nat VGNode)
      (rec : option nat → ConvState →
             outcome (option nat * option error * ConvState))
      (n : nat) (t : option nat)
      (set : html.Node.t → option nat → html.Node.t)
      (s0 s s' : ConvState) (acc : list ConvEvent) (x : html.Node.t)
      (ls : list (option nat * option nat)) (e : option error) :
  (∀ p s r err s',
     rec p s = Done (r, err, s') →
     err = None
     ∧ ∃ evs, isoRun vh s s' evs ∧ linkOK (ptrMap s') (p, r)) →
  isoFrame vh n s0 s acc x ls →
  convLink rec n t set s = Done (e, s') →
  e = None
  ∧ ∃ r acc', isoFrame vh n s0 s' acc' (set x r) ((t, r) :: ls).
Proof.
  intros Hrec (E & P & Hn & Hkeep & Hnd & Hacc & Hls). unfold convLink.
  destruct (rec t s) as [[[r e1] s1]| |] eqn:Hrun; [|done..].
  cbn [mbind outcome_bind]. intros [= <- <-].
  destruct (Hrec _ _ _ _ _ Hrun)
    as (-> & evs & (E1 & P1 & H1 & N1 & A1) & Hok).
  split; [done|]. exists r, (acc ++ evs).
  assert (Hn1 : hheap s1 !! n = Some x) by (by eapply lookup_weaken).
  unfold isoFrame, assign. cbn [events ptrMap hheap].
  split; [by rewrite E1, E, (assoc_L (++))|].
  split; [by trans (ptrMap s)|].
  split; [by rewrite lookup_alter_eq, Hn1|].
  split.
  { intros m y Hm Hy. rewrite lookup_alter_ne by done.
    eapply lookup_weaken; [by apply Hkeep|done]. }
  split.
  { rewrite allocNodes_app. apply NoDup_app. split; [done|].
    split; [|done].
    intros m [a Ha]%elem_of_allocNodes [a' Ha']%elem_of_allocNodes.
    destruct (Hacc a m Ha) as (_ & _ & (w & _ & Hw & _)).
    destruct (A1 a' m Ha') as [Hnone _]. congruence. }
  split.
  { intros a m [Hin|Hin]%elem_of_app.
    - destruct (Hacc a m Hin) as (Hm & H0 & Hc). do 2 (split; [done|]).
      eapply (converted_weaken vh (ptrMap s) (ptrMap s1) (hheap s));
        [exact P1| |exact Hc].
      intros y Hy. rewrite lookup_alter_ne by done. by eapply lookup_weaken.
    - destruct (A1 a m Hin) as [Hnone Hc].
      assert (Hm : m ≠ n) by (intros ->; congruence).
      split; [done|]. split.
      + destruct (hheap s0 !! m) as [y|] eqn:Hy; [|done].
        rewrite (Hkeep m y Hm Hy) in Hnone. done.
      + eapply (converted_weaken vh (ptrMap s1) (ptrMap s1) (hheap s1));
          [done| |exact Hc].
        intros y Hy. by rewrite lookup_alter_ne. }
  constructor; [done|].
  eapply Forall_impl; [exact Hls|]. intros tr. by apply linkOK_weaken.
Qed.

Lemma conv_isoRun (vh : gmap nat VGNode) (fuel : nat) :
  (∀ a v, vh !! a = Some v → InnerHTML v = "") →
  ∀ (p : option nat) (s : ConvState) (r : option nat) (err : option error)
    (s' : ConvState),
  conv fuel vh p s = Done (r, err, s') →
  err = None ∧ ∃ evs, isoRun vh s s' evs ∧ linkOK (ptrMap s') (p, r).
Proof.
  intros Hno. induction fuel as [|fuel IH]; intros p s r err s'; [done|].
  rewrite conv_S. destruct p as [a|]; cycle 1.
  { intros [= <- <- <-]. split; [done|]. exists [].
    split; [|by split].
    unfold isoRun. rewrite (right_id_L [] (++)). do 3 (split; [done|]).
    split; [constructor|]. intros a n []%not_elem_of_nil. }
  destruct (ptrMap s !! a) as [n0|] eqn:Hhit.
  { intros [= <- <- <-]. split; [done|]. exists []. split.
    - unfold isoRun. rewrite (right_id_L [] (++)). do 3 (split; [done|]).
      split; [constructor|]. intros a' n []%not_elem_of_nil.
    - split; [by cbn; rewrite Hhit|]. intros b [= <-]. eauto. }
  cbn zeta. set (n := fresh (dom (hheap s))).
  assert (Hfresh : hheap s !! n = None).
  { apply not_elem_of_dom. apply is_fresh. }
  set (s0 := {| hheap := <[n := html.Node.zero]> (hheap s);
                ptrMap := <[a := n]> (ptrMap s);
                events := events s ++ [EvAlloc a n] |}).
  unfold deref. destruct (vh !! a) as [v|] eqn:Hv; [|done].
  cbn [mbind outcome_bind].
  assert (F0 : isoFrame vh n s0 s0 [] html.Node.zero []).
  { unfold isoFrame. rewrite (right_id_L [] (++)). split; [done|].
    split; [done|]. split; [apply lookup_insert_eq|]. split; [done|].
    split; [constructor|].
    split; [intros a' m []%not_elem_of_nil|constructor]. }
  assert (H0e : events s0 = events s ++ [EvAlloc a n]) by done.
  assert (H0p : ptrMap s0 = <[a := n]> (ptrMap s)) by done.
  assert (H0h : hheap s0 = <[n := html.Node.zero]> (hheap s)) by done.
  clearbody s0.
  destruct (convLink (conv fuel vh) n (Parent v) html.Node.setParent s0)
    as [[e1 s1]| |] eqn:L1; [|done..]. cbn [mbind outcome_bind].
  destruct (isoFrame_link vh _ _ _ _ _ _ _ _ _ _ _ IH F0 L1)
    as (-> & r1 & a1 & F1).
  destruct (convLink (conv fuel vh) n (FirstChild v) html.Node.setFirstChild s1)
    as [[e2 s2]| |] eqn:L2; [|done..]. cbn [mbind outcome_bind].
  destruct (isoFrame_link vh _ _ _ _ _ _ _ _ _ _ _ IH F1 L2)
    as (-> & r2 & a2 & F2).
  destruct (convLink (conv fuel vh) n (LastChild v) html.Node.setLastChild s2)
    as [[e3 s3]| |] eqn:L3; [|done..]. cbn [mbind outcome_bind].
  destruct (isoFrame_link vh _ _ _ _ _ _ _ _ _ _ _ IH F2 L3)
    as (-> & r3 & a3 & F3).
  destruct (convLink (conv fuel vh) n (PrevSibling v) html.Node.setPrevSibling s3)
    as [[e4 s4]| |] eqn:L4; [|done..]. cbn [mbind outcome_bind].
  destruct (isoFrame_link vh _ _ _ _ _ _ _ _ _ _ _ IH F3 L4)
    as (-> & r4 & a4 & F4).
  destruct (convLink (conv fuel vh) n (NextSibling v) html.Node.setNextSibling s4)
    as [[e5 s5]| |] eqn:L5; [|done..]. cbn [mbind outcome_bind].
  destruct (isoFrame_link vh _ _ _ _ _ _ _ _ _ _ _ IH F4 L5)
    as (-> & r5 & a5 & F5).
  clear L1 L2 L3 L4 L5 F0 F1 F2 F3 F4.
  unfold convInner. rewrite decide_True by (by eapply Hno).
  intros [= <- <- <-]. split; [done|].
  destruct F5 as (E & P & Hn & Hkeep & Hnd & Hacc & Hls).
  repeat match goal with
         | H : Forall _ (_ :: _) |- _ =>
           apply Forall_cons in H as [[? ?] H]
         end.
  cbn [fst snd] in *. subst r1 r2 r3 r4 r5.
  assert (Hpa : ptrMap s5 !! a = Some n).
  { eapply lookup_weaken; [|exact P]. rewrite H0p. apply lookup_insert_eq. }
  assert (Hnode : hheap (convInfo v n s5) !! n
            = Some (html.Node.mk (image (ptrMap s5) (Parent v))
                                 (image (ptrMap s5) (FirstChild v))
                                 (image (ptrMap s5) (LastChild v))
                                 (image (ptrMap s5) (PrevSibling v))
                                 (image (ptrMap s5) (NextSibling v))
                                 (Type_ v) (DataAtom v) (Data v) (Namespace v)
                                 (convAttrs v []))).
  { unfold convInfo, assign. cbn [hheap].
    rewrite !lookup_alter_eq, Hn. done. }
  assert (Hother : ∀ m, m ≠ n →
            hheap (convInfo v n s5) !! m = hheap s5 !! m).
  { intros m Hm. unfold convInfo, assign. cbn [hheap].
    by rewrite !lookup_alter_ne. }
  exists ([EvAlloc a n] ++ a5). split.
  - unfold isoRun. change (events (convInfo v n s5)) with (events s5).
    change (ptrMap (convInfo v n s5)) with (ptrMap s5).
    split; [by rewrite E, H0e, <- (assoc_L (++))|].
    split.
    { trans (ptrMap s0); [|done]. rewrite H0p. by apply insert_subseteq. }
    split.
    { apply map_subseteq_spec. intros m y Hy.
      assert (Hm : m ≠ n) by (intros ->; congruence).
      rewrite (Hother m Hm). apply Hkeep; [done|].
      by rewrite H0h, lookup_insert_ne. }
    split.
    { cbn [app allocNodes omap list_omap]. apply NoDup_cons. split; [|done].
      intros [a' Ha']%elem_of_allocNodes.
      by destruct (Hacc a' n Ha') as (Hm & _). }
    intros a' m [Hin|Hin]%elem_of_app.
    + apply list_elem_of_singleton in Hin. injection Hin as -> ->.
      split; [done|]. exists v. split; [done|]. split; [done|].
      intros b Hb. unfold links in Hb.
      repeat (apply elem_of_cons in Hb as [Hb|Hb]; [eauto|]).
      by apply not_elem_of_nil in Hb.
    + destruct (Hacc a' m Hin) as (Hm & Hm0 & Hc).
      split.
      * rewrite H0h, lookup_insert_ne in Hm0; done.
      * eapply (converted_weaken vh (ptrMap s5) (ptrMap s5) (hheap s5));
          [done| |exact Hc].
        intros y Hy. by rewrite Hother.
  - change (ptrMap (convInfo v n s5)) with (ptrMap s5). split.
    + cbn. by rewrite Hpa.
    + intros b [= <-]. eauto.
Qed.

(** X5.  On a heap whose nodes carry no raw markup, a conversion that
    returns: returns no error and the image of its argument; leaves the
    output nodes that existed as they were; makes pairwise distinct, new
    output nodes; and every output node it made is the conversion of its
    input node: kind, atom, tag and namespace copied, attributes merged, and
    each of the five links the image, under the identity map, of the input
    node's link.  From the empty identity map this holds for every entry of
    the identity map. *)
Theorem conv_builds_the_image_of_the_graph
        (vh : gmap nat VGNode) (fuel : nat) (p : option nat)
        (s s' : ConvState) (r : option nat) (err : option error) :
  (∀ a v, vh !! a = Some v → InnerHTML v = "") →
  conv fuel vh p s = Done (r, err, s') →
  err = None
  ∧ r = image (ptrMap s') p
  ∧ hheap s ⊆ hheap s'
  ∧ NoDup (allocNodes (drop (length (events s)) (events s')))
  ∧ (∀ a n, EvAlloc a n ∈ drop (length (events s)) (events s') →
            hheap s !! n = None
            ∧ converted vh (ptrMap s') (hheap s') a n)
  ∧ (ptrMap s = ∅ →
     ∀ a n, ptrMap s' !! a = Some n →
            converted vh (ptrMap s') (hheap s') a n).
Proof.
  intros Hno Hrun.
  destruct (conv_isoRun vh fuel Hno p s r err s' Hrun)
    as (-> & evs & (E & P & H & N & A) & Hr & _).
  destruct (conv_rel vh fuel p s r None s' Hrun)
    as (evs' & (E' & _ & D & _ & _ & A') & _).
  assert (evs' = evs) as -> by (rewrite E in E'; by apply app_inv_head in E').
  rewrite E, drop_app_length.
  do 5 (split; [done|]).
  intros Hempty a n Han.
  assert (Hin : a ∈ allocKeys evs).
  { apply elem_of_dom_2 in Han. rewrite D, Hempty, dom_empty_L in Han.
    apply elem_of_union in Han as [[]%not_elem_of_empty|Han].
    by apply elem_of_list_to_set in Han. }
  apply elem_of_allocKeys in Hin as [m Hm].
  pose proof (A' a m Hm) as Ham. rewrite Han in Ham. injection Ham as <-.
  by apply A.
Qed.

(** ** A component that brings in its own tag *)

(** X11.  Take a tag registered to a component type for which [New]
    succeeds on all properties, and whose builder, on every call, returns
    no error, a nil style node and a tree whose root and first child are
    new nodes, the nodes that existed left as they were, the first child
    being an element with that same tag and a nil [NextSibling].  Then the
    walk from an element with that tag does not return, whatever the budget
    and the aggregate style node, and neither does Render when the root
    build yields such an element as the tree. *)
Theorem Walk_on_self_reference_never_returns
        (e : StaticHTMLEnv) (css : option nat) (tag : string)
        (ct : ComponentType) :
  regLookup (reg e) tag = Some ct →
  (∀ props, ∃ ci, New ct props = (Some ci, None)) →
  (∀ d (h : gmap nat VGNode),
     ∃ h' r c rv cv,
       BuildVDOM ct d h = (h', Some r, None, None)
       ∧ h !! r = None ∧ h !! c = None ∧ r ≠ c
       ∧ (∀ a x, h !! a = Some x → h' !! a = Some x)
       ∧ h' !! r = Some rv ∧ FirstChild rv = Some c
       ∧ h' !! c = Some cv ∧ Type_ cv = ElementNode ∧ Data cv = tag
       ∧ NextSibling cv = None) →
  (∀ fuel fuel' a (h : gmap nat VGNode) v,
     h !! a = Some v → Type_ v = ElementNode → Data v = tag →
     Walk fuel (expand fuel' e css) (Some a) h = OutOfFuel)
  ∧ (∀ fuel (w : World) c a h v,
       rootInst e = Some c →
       BuildVDOM (ci_Type c) (ci_Data c) (vheap w) = (h, Some a, css, None) →
       h !! a = Some v → Type_ v = ElementNode → Data v = tag →
       Render fuel e w = OutOfFuel).
Proof.
  intros Hreg Hnew Hbuild.
  assert (Hexp : ∀ fuel' a (h : gmap nat VGNode) v,
     h !! a = Some v → Type_ v = ElementNode → Data v = tag →
     expand fuel' e css a h = OutOfFuel
     ∨ ∃ h2 v2 c cv,
         expand fuel' e css a h = Done (None, h2)
         ∧ h2 !! a = Some v2 ∧ FirstChild v2 = Some c
         ∧ h2 !! c = Some cv ∧ Type_ cv = ElementNode ∧ Data cv = tag).
  { intros fuel' a h v Hv Hty Htag. unfold expand, deref. rewrite Hv.
    cbn [mbind outcome_bind].
    rewrite decide_False by (intros Hne; by apply Hne).
    rewrite Htag, Hreg. destruct (Hnew (instProps v)) as [ci ->].
    cbn [mbind outcome_bind].
    destruct (Hbuild (ci_Data ci) h)
      as (h' & r & c & rv & cv & -> & Hr & Hc & Hrc & Hkeep & Hrv & Hfc
          & Hcv & Hcty & Hctag & Hcns).
    cbn [aggregateStyle mbind outcome_bind].
    unfold splice, deref. rewrite Hrv. cbn [mbind outcome_bind]. rewrite Hfc.
    destruct fuel' as [|fuel']; [by left|]. right.
    assert (Hac : a ≠ c) by (intros ->; congruence).
    assert (Hrep : reparent (S fuel') (Some c) a h'
                   = Done (<[c := setParent cv (Some a)]> h')).
    { cbn [reparent]. unfold deref. rewrite Hcv. cbn [mbind outcome_bind].
      rewrite lookup_insert_eq. cbn [mbind outcome_bind].
      change (NextSibling (setParent cv (Some a))) with (NextSibling cv).
      rewrite Hcns. by destruct fuel'. }
    rewrite Hrep. cbn [mbind outcome_bind].
    rewrite (lookup_insert_ne _ c r) by done.
    rewrite Hrv. cbn [mbind outcome_bind].
    rewrite (lookup_insert_ne _ c a) by done.
    rewrite (Hkeep a v Hv). cbn [mbind outcome_bind].
    eexists _, _, c, (setParent cv (Some a)). split; [reflexivity|].
    split; [apply lookup_insert_eq|]. split; [exact Hfc|].
    split; [|done]. rewrite lookup_insert_ne by done. apply lookup_insert_eq. }
  assert (Hwalk : ∀ fuel fuel' a (h : gmap nat VGNode) v,
     h !! a = Some v → Type_ v = ElementNode → Data v = tag →
     Walk fuel (expand fuel' e css) (Some a) h = OutOfFuel).
  { intros fuel fuel'. induction fuel as [fuel IH] using lt_wf_ind.
    intros a h v Hv Hty Htag. destruct fuel as [|fuel]; [done|].
    rewrite Walk_S.
    destruct (Hexp fuel' a h v Hv Hty Htag)
      as [->|(h2 & v2 & c & cv & -> & Hv2 & Hfc & Hcv & Hcty & Hctag)];
      [done|].
    cbn [mbind outcome_bind]. unfold deref. rewrite Hv2.
    cbn [mbind outcome_bind]. rewrite Hfc.
    destruct fuel as [|fuel]; [done|]. rewrite walkSiblings_S.
    by erewrite IH; [|lia|..]. }
  split; [exact Hwalk|].
  intros fuel w c a h v Hroot Hb Hv Hty Htag. unfold Render. rewrite Hroot.
  cbn [mbind outcome_bind]. rewrite Hb. cbn [vheap].
  by erewrite Hwalk.
Qed.

(** X12.  When the builder of a matched component returns a nil tree and no
    error, the callback panics (at the latest where the splice reads
    [cdom.FirstChild]), and so does the walk that starts at that node. *)
Theorem expand_panics_on_nil_tree
        (fuel : nat) (e : StaticHTMLEnv) (css : option nat) (vgn : nat)
        (h h1 : gmap nat VGNode) (v : VGNode) (ct : ComponentType)
        (ci : ComponentInst) (ccss : option nat) :
  h !! vgn = Some v →
  Type_ v = ElementNode →
  regLookup (reg e) (Data v) = Some ct →
  New ct (instProps v) = (Some ci, None) →
  BuildVDOM ct (ci_Data ci) h = (h1, None, ccss, None) →
  expand fuel e css vgn h = Panic
  ∧ ∀ fuel', Walk (S fuel') (expand fuel e css) (Some vgn) h = Panic.
Proof.
  intros Hv Hty Hreg Hnew Hbuild.
  assert (Hexp : expand fuel e css vgn h = Panic).
  { unfold expand, deref. rewrite Hv. cbn [mbind outcome_bind].
    rewrite decide_False by (intros Hne; by apply Hne).
    rewrite Hreg, Hnew. cbn [mbind outcome_bind]. rewrite Hbuild.
    assert (Hagg : aggregateStyle css ccss h1 ≠ OutOfFuel).
    { unfold aggregateStyle, deref. destruct ccss as [ca|]; [|done].
      destruct (h1 !! ca) as [cv|]; [|done]. cbn [mbind outcome_bind].
      destruct (FirstChild cv) as [f|]; [|done].
      unfold AppendChild, deref. destruct css as [na|]; [|done].
      destruct (h1 !! na) as [nn|]; [|done]. cbn [mbind outcome_bind].
      destruct (LastChild nn) as [la|];
        [destruct (h1 !! la) as [ln|]; [|done]|];
        cbn [mbind outcome_bind];
        repeat (match goal with
                | |- context [match ?m !! ?k with _ => _ end] =>
                  destruct (m !! k); [|done]; cbn [mbind outcome_bind]
                end); done. }
    by destruct (aggregateStyle css ccss h1). }
  split; [exact Hexp|]. intros fuel'. by rewrite Walk_S, Hexp.
Qed.

End Properties.

(** * The statements on the concrete instance *)

(** C1.  Registry [widget ↦ failingType], root tree [<div><widget/></div>]:
    the walk stops at [<widget>] with the builder's error, yet Render
    returns nil and has made one render call, for the tree with the
    unexpanded [<widget>] in it.  The specification asks for that error and
    for no conversion or serialization after it. *)
Theorem Render_drops_the_error_of_the_walk :
  (let '(h, vdom, css, _) := BuildVDOM Ex.rootType ∅ ∅ in
   fst <$> match Ex.walk 10 Ex.rootType {["widget" := Ex.failingType]} css vdom h
           with Done x => Some x | _ => None end)
  = Some (Some "build failed")
  ∧ match Ex.render 10 (Ex.env Ex.rootType {["widget" := Ex.failingType]})
                    Ex.world0 with
    | Done (r, w) =>
      r = None
      ∧ (λ c, html.Node.Data <$> (rc_heap c !! rc_node c)) <$> written w
        = [Some "div"]
      ∧ (λ n, html.Node.Data n) <$> (map_to_list (oheap w)).*2
        = ["widget"; "div"]
    | _ => False
    end.
Proof. split; [by vm_compute|]. vm_compute. done. Qed.

(** The splice on [Ex.spliceHeap]: the node at 0 keeps parent 7 and
    siblings 5 and 6 and becomes the [span] with the children 2 and 3. *)
Lemma splice_keeps_position_witness :
  Ex.spliceHeap !! 0 = Some (Ex.element "widget" (Some 7) None None (Some 5) (Some 6))
  ∧ ∃ h' v',
      splice 2 0 (Some 1) Ex.spliceHeap = Done h'
      ∧ h' !! 0 = Some v'
      ∧ Parent v' = Some 7 ∧ PrevSibling v' = Some 5 ∧ NextSibling v' = Some 6
      ∧ Data v' = "span" ∧ FirstChild v' = Some 2 ∧ LastChild v' = Some 3
      ∧ (∀ c, c ∈ [2; 3] → ∃ cv, h' !! c = Some cv ∧ Parent cv = Some 0).
Proof.
  split; [reflexivity|].
  destruct (splice_keeps_position_takes_content
              2 0 1 Ex.spliceHeap
              (Ex.element "widget" (Some 7) None None (Some 5) (Some 6))
              (Ex.element "span" None (Some 2) (Some 3) None None)
              [2; 3])
    as (h' & v' & Hrun & Hv' & Hp & Hps & Hns & Hch & _ & _ & Hd & _ & _ & _ & _
        & Hfc & Hlc & _).
  - reflexivity.
  - reflexivity.
  - eapply vchain_cons; [reflexivity|]. eapply vchain_cons; [reflexivity|].
    constructor.
  - apply (bool_decide_unpack _). by vm_compute.
  - simpl. lia.
  - exists h', v'. rewrite Hp, Hps, Hns, Hd, Hfc, Hlc. done.
Defined.

(** The style step on [Ex.styleWorld]: one render call, for a [style]
    element whose only child is the text ["a{color:red}"]. *)
Lemma style_block_witness :
  vheap Ex.styleWorld !! 0 = Some (Ex.element "style" None (Some 1) (Some 1) None None)
  ∧ ∃ cssn t hh,
      renderStyle Ex.sinkOk Ex.styleAtom (Ex.env Ex.rootType ∅) (Some 0)
                  Ex.styleWorld
      = Done (None, mkWorld (vheap Ex.styleWorld) hh [mkRenderCall tt cssn hh])
      ∧ hh !! cssn
        = Some (html.Node.mk None (Some t) (Some t) None None ElementNode
                             Ex.styleAtom "style" "" [])
      ∧ hh !! t
        = Some (html.Node.mk (Some cssn) None None None None TextNode
                             0%N "a{color:red}" "" []).
Proof.
  split; [reflexivity|].
  destruct (style_block_holds_first_fragment_only
              Ex.VNil Ex.GoSprint Ex.orderedKeys Ex.parseFragment Ex.sinkOk
              Ex.styleAtom (Ex.env Ex.rootType ∅) Ex.styleWorld 0 1
              (Ex.element "style" None (Some 1) (Some 1) None None)
              (Ex.text "a{color:red}" (Some 0) None None))
    as (cssn & t & hh & Hrun & Hs & Ht & _); [reflexivity..|].
  exists cssn, t, hh. done.
Defined.

(** [Ex.orderedKeys] lists the keys of a map, each once. *)
Lemma orderedKeys_lists_keys (p : gmap string Ex.GoValue) :
  listsPropertyKeys (Ex.orderedKeys p) p.
Proof.
  unfold listsPropertyKeys, Ex.orderedKeys. split.
  - apply NoDup_fst_map_to_list.
  - intros k. rewrite list_elem_of_fmap. split.
    + intros ([k' v] & -> & Hkv). apply elem_of_map_to_list in Hkv.
      by exists v.
    + intros [v Hv]. exists (k, v). split; [done|].
      by apply elem_of_map_to_list.
Defined.


(** The conversion of [Ex.cyclicHeap]: two allocations, for the two distinct
    input nodes, and the result is the entry of the argument. *)
Lemma conv_one_output_node_witness :
  ∃ r s',
    Ex.convert 5 Ex.cyclicHeap (Some 0) Ex.convState0 = Done (r, None, s')
    ∧ allocKeys (events s') = [0; 1]
    ∧ NoDup (allocKeys (events s'))
    ∧ r = ptrMap s' !! 0.
Proof.
  eexists _, _. split; [by vm_compute|].
  split; [by vm_compute|].
  match goal with
  | |- NoDup (allocKeys (events ?s')) ∧ ?r = _ =>
    destruct (conv_one_output_node_per_input_node
                Ex.VNil Ex.GoSprint Ex.orderedKeys Ex.parseFragment
                Ex.cyclicHeap 5 (Some 0) Ex.convState0 s' r None)
      as ((evs & E & Hnd & _) & Hr & _); [by vm_compute|]
  end.
  split; [|by apply Hr]. cbn [events Ex.convState0 app] in E. by rewrite E.
Defined.

Lemma cyclicHeap_closed : closed Ex.cyclicHeap.
Proof.
  intros a v Hv b Hb. unfold Ex.cyclicHeap in Hv.
  apply lookup_insert_Some in Hv as [[<- <-]|[_ Hv]];
    [|apply lookup_insert_Some in Hv as [[<- <-]|[_ Hv]];
      [|by rewrite lookup_empty in Hv]];
    repeat (apply elem_of_cons in Hb as [Hb|Hb];
            [try discriminate Hb; injection Hb as ->; eexists; reflexivity|]);
    by apply not_elem_of_nil in Hb.
Defined.

(** The conversion of [Ex.cyclicHeap] with a budget of three, one above the
    number of its nodes: conv returns, without an error. *)
Lemma conv_terminates_witness :
  size (dom Ex.cyclicHeap ∖ dom (ptrMap Ex.convState0)) < 3
  ∧ ∃ r s', Ex.convert 3 Ex.cyclicHeap (Some 0) Ex.convState0
            = Done (r, None, s').
Proof.
  assert (Hsize : size (dom Ex.cyclicHeap ∖ dom (ptrMap Ex.convState0)) < 3).
  { vm_compute. lia. }
  split; [exact Hsize|].
  destruct (conv_terminates Ex.VNil Ex.GoSprint Ex.orderedKeys Ex.parseFragment
                            Ex.cyclicHeap 3 (Some 0) Ex.convState0 Hsize)
    as (_ & _ & Hdone & _).
  apply Hdone.
  - exact cyclicHeap_closed.
  - intros a v Hv. unfold Ex.cyclicHeap in Hv.
    apply lookup_insert_Some in Hv as [[<- <-]|[_ Hv]]; [done|].
    apply lookup_insert_Some in Hv as [[<- <-]|[_ Hv]]; [done|].
    by rewrite lookup_empty in Hv.
  - intros b [= <-]. eexists; reflexivity.
Defined.

(** Raw markup the parser rejects, on [<p>] at 0: conv logs the failed
    parse and Render's tail returns the parser's error without a render
    call.  Raw markup the parser takes, on an output node 0 that has the
    child 1: the parsed node 2 becomes the second child. *)
Lemma rawMarkup_witness :
  (∃ r s',
     Ex.convert 3 (<[0 := Ex.rawNode "<"]> ∅) (Some 0) Ex.convState0
     = Done (r, Some "unexpected EOF", s')
     ∧ renderTree Ex.VNil Ex.GoSprint Ex.orderedKeys Ex.parseFragment Ex.sinkOk
                  3 (Ex.env Ex.rootType ∅) (Some 0)
                  (mkWorld (<[0 := Ex.rawNode "<"]> ∅) ∅ [])
       = Done (Some "unexpected EOF",
               mkWorld (<[0 := Ex.rawNode "<"]> ∅) (hheap s') []))
  ∧ (children Ex.outputHeap 0 [1]
     ∧ ∃ hh',
         convInner Ex.parseFragment 0 (Ex.rawNode "bold") 0
                   (mkConvState Ex.outputHeap ∅ [])
         = Done (Some 0, None, mkConvState hh' ∅ [EvParse 0 None])
         ∧ children hh' 0 [1; 2]
         ∧ ∃ cn, hh' !! 2 = Some cn ∧ html.Node.Parent cn = Some 0
                 ∧ html.Node.Data cn = "bold").
Proof.
  assert (Hrun : ∃ r s',
    Ex.convert 3 (<[0 := Ex.rawNode "<"]> ∅) (Some 0) Ex.convState0
    = Done (r, Some "unexpected EOF", s')
    ∧ EvParse 0 (Some "unexpected EOF") ∈ events s').
  { eexists _, _. split; [by vm_compute|].
    apply list_elem_of_further, list_elem_of_here. }
  destruct Hrun as (r & s' & Hrun & Hin).
  destruct (rawMarkup_is_parsed_and_appended
              Ex.VNil Ex.GoSprint Ex.orderedKeys Ex.parseFragment Ex.sinkOk
              3 (Ex.env Ex.rootType ∅) (Some 0)
              (mkWorld (<[0 := Ex.rawNode "<"]> ∅) ∅ [])
              r (Some "unexpected EOF") s' Hrun)
    as (Hfail & _ & _ & _ & _ & Happend).
  split.
  { exists r, s'. split; [exact Hrun|]. by destruct (Hfail 0 _ Hin) as [_ ->]. }
  assert (Hch : children Ex.outputHeap 0 [1]).
  { eexists. split; [reflexivity|]. split; [|reflexivity].
    eapply hchain_cons; [reflexivity|]. constructor. }
  split; [exact Hch|].
  destruct (Happend 0 (Ex.rawNode "bold") 0 (mkConvState Ex.outputHeap ∅ [])
                    (<[2 := Ex.textNode "bold"]> Ex.outputHeap) [2] [1])
    as (hh' & Hinner & Hch' & Hpar).
  - done.
  - by vm_compute.
  - eexists. split; [reflexivity|]. split; [|reflexivity].
    eapply hchain_cons; [reflexivity|]. constructor.
  - apply (bool_decide_unpack _). by vm_compute.
  - apply (bool_decide_unpack _). by vm_compute.
  - apply NoDup_singleton.
  - intros c ->%list_elem_of_singleton. split.
    + apply (bool_decide_unpack _). by vm_compute.
    + eexists. split; [reflexivity|]. done.
  - exists hh'. split; [exact Hinner|]. split; [exact Hch'|].
    destruct (Hpar 2) as (cn & Hcn & Hp); [by apply list_elem_of_singleton|].
    exists cn. split; [done|]. split; [done|].
    vm_compute in Hinner. injection Hinner as <-.
    vm_compute in Hcn. by injection Hcn as <-.
Defined.

(** Raw markup the parser takes, on [<p>] at 0 without children: the parsed
    node is the only child of the output node. *)
Example rawMarkup_success_example :
  match Ex.convert 3 (<[0 := Ex.rawNode "bold"]> ∅) (Some 0) Ex.convState0 with
  | Done (Some n, None, s) =>
    match hheap s !! n with
    | Some nn =>
      html.Node.Data nn = "p"
      ∧ html.Node.FirstChild nn = html.Node.LastChild nn
      ∧ (html.Node.FirstChild nn ≫= λ c, hheap s !! c)
        = Some (html.Node.mk (Some n) None None None None TextNode 0%N
                             "bold" "" [])
    | None => False
    end
  | _ => False
  end.
Proof. by vm_compute. Qed.

(** The same on [<p>kid</p>]: the parsed node comes behind the child the
    node has. *)
Example rawMarkup_after_children_example :
  match Ex.convert 4
          (<[0 := mkVGNode ElementNode 0%N "p" "" [] ∅ "bold"
                           None (Some 1) (Some 1) None None]>
           (<[1 := Ex.text "kid" (Some 0) None None]> ∅))
          (Some 0) Ex.convState0 with
  | Done (Some n, None, s) =>
    ∃ nn k b kn bn,
      hheap s !! n = Some nn
      ∧ html.Node.FirstChild nn = Some k ∧ html.Node.LastChild nn = Some b
      ∧ hheap s !! k = Some kn ∧ hheap s !! b = Some bn
      ∧ html.Node.Data kn = "kid" ∧ html.Node.NextSibling kn = Some b
      ∧ html.Node.Data bn = "bold" ∧ html.Node.NextSibling bn = None
      ∧ html.Node.Parent bn = Some n
  | _ => False
  end.
Proof. vm_compute. by eexists _, _, _, _, _. Qed.

(** Root [<widget/>] with a nil style node and a component that brings a
    style fragment: the aggregation step, the callback and Render panic. *)
Lemma nil_root_style_witness :
  BuildVDOM Ex.bareRootType ∅ ∅
  = (<[0 := Ex.element "widget" None None None None None]> ∅, Some 0, None, None)
  ∧ expand Ex.VString Ex.newInst 4
           (Ex.env Ex.bareRootType {["widget" := Ex.spanType]}) None 0
           (<[0 := Ex.element "widget" None None None None None]> ∅)
    = Panic
  ∧ Ex.render 5 (Ex.env Ex.bareRootType {["widget" := Ex.spanType]}) Ex.world0
    = Panic.
Proof.
  split; [reflexivity|].
  set (h := <[0 := Ex.element "widget" None None None None None]> ∅
            : gmap nat Ex.Node).
  destruct (aggregateStyle_nil_root_style_panics
              Ex.VNil Ex.VString Ex.GoSprint Ex.orderedKeys Ex.newInst
              Ex.parseFragment Ex.sinkOk Ex.styleAtom 4
              (Ex.env Ex.bareRootType {["widget" := Ex.spanType]}) 0
              h (BuildVDOM Ex.spanType ∅ h).1.1.1
              (Ex.element "widget" None None None None None)
              (Ex.element "style" None (Some 4) (Some 4) None None)
              Ex.spanType (mkComponentInst Ex.spanType ∅)
              (BuildVDOM Ex.spanType ∅ h).1.1.2 3 4)
    as (_ & _ & Hexp & _ & Hrender & _).
  - reflexivity.
  - reflexivity.
  - reflexivity.
  - reflexivity.
  - reflexivity.
  - reflexivity.
  - reflexivity.
  - split; [exact Hexp|]. by apply (Hrender (mkComponentInst Ex.bareRootType ∅)).
Defined.

(** ** The specification's examples on the concrete instance *)

(** Single-level expansion and the style block: root
    [<div><widget/></div>] with the style ["a{color:red}"], [widget]
    rendering [<span>X</span>] with the style ["b{color:blue}"].  Render
    makes two calls: the style block with the first text only, then the
    tree [<div><span>X</span></div>]. *)
Example Render_expands_and_emits_first_style :
  match Ex.render 10 (Ex.env Ex.styledRootType {["widget" := Ex.spanType]})
                  Ex.world0 with
  | Done (None, w) =>
    (λ c, html.Node.Data <$> (rc_heap c !! rc_node c)) <$> written w
    = [Some "style"; Some "div"]
    ∧ (λ n, html.Node.Data n) <$> (map_to_list (oheap w)).*2
      = ["X"; "div"; "span"; "a{color:red}"; "style"]
  | _ => False
  end.
Proof. by vm_compute. Qed.

(** The instantiation properties of [Ex.boundNode]: the property [foo]
    stays 42, the attribute [x] is added as a string. *)
Example instProps_example :
  instProps Ex.VString Ex.boundNode
  = <["x" := Ex.VString "1"]> (Props_ Ex.boundNode).
Proof. by vm_compute. Qed.

(** * The further properties on the concrete instance *)

(** The keys [foo], [x] of [Ex.boundNode] are distinct, and so are the keys
    of the merged list. *)
Lemma convAttrs_keeps_keys_unique_witness :
  NoDup (VGAttribute.Key <$> Attr Ex.boundNode)
  ∧ NoDup (html.Attribute.Key
             <$> convAttrs Ex.VNil Ex.GoSprint Ex.orderedKeys Ex.boundNode []).
Proof.
  assert (Hnd : NoDup (VGAttribute.Key <$> Attr Ex.boundNode)).
  { apply (bool_decide_unpack _). by vm_compute. }
  split; [exact Hnd|].
  exact (convAttrs_keeps_keys_unique Ex.VNil Ex.GoSprint Ex.orderedKeys
                                     Ex.boundNode Hnd).
Defined.

(** Converting the root of [Ex.cyclicHeap] again, and its child, after the
    first conversion. *)
Lemma conv_again_witness :
  ∃ r s',
    Ex.convert 5 Ex.cyclicHeap (Some 0) Ex.convState0 = Done (r, None, s')
    ∧ Ex.convert 1 Ex.cyclicHeap (Some 0) s' = Done (r, None, s')
    ∧ Ex.convert 1 Ex.cyclicHeap (Some 1) s' = Done (Some 1, None, s').
Proof.
  assert (Hrun : ∃ r s',
    Ex.convert 5 Ex.cyclicHeap (Some 0) Ex.convState0 = Done (r, None, s')
    ∧ EvAlloc 1 1 ∈ drop (length (events Ex.convState0)) (events s')).
  { eexists _, _. split; [by vm_compute|].
    apply list_elem_of_further, list_elem_of_here. }
  destruct Hrun as (r & s' & Hrun & Hin). exists r, s'. split; [exact Hrun|].
  destruct (conv_again_returns_the_same_node
              Ex.VNil Ex.GoSprint Ex.orderedKeys Ex.parseFragment
              Ex.cyclicHeap 5 (Some 0) Ex.convState0 s' r Hrun) as [H1 H2].
  split; [apply H1|]. by apply H2.
Defined.

Lemma cyclicHeap_no_markup :
  ∀ a v, Ex.cyclicHeap !! a = Some v → InnerHTML v = "".
Proof.
  intros a v Hv. unfold Ex.cyclicHeap in Hv.
  apply lookup_insert_Some in Hv as [[<- <-]|[_ Hv]]; [done|].
  apply lookup_insert_Some in Hv as [[<- <-]|[_ Hv]]; [done|].
  by rewrite lookup_empty in Hv.
Defined.

(** The conversion of [Ex.cyclicHeap]: the output nodes 0 and 1 are the
    conversions of the input nodes 0 and 1. *)
Lemma conv_image_witness :
  ∃ r s',
    Ex.convert 5 Ex.cyclicHeap (Some 0) Ex.convState0 = Done (r, None, s')
    ∧ converted Ex.VNil Ex.GoSprint Ex.orderedKeys Ex.cyclicHeap
                (ptrMap s') (hheap s') 0 0
    ∧ converted Ex.VNil Ex.GoSprint Ex.orderedKeys Ex.cyclicHeap
                (ptrMap s') (hheap s') 1 1
    ∧ hheap s' !! 1
      = Some (html.Node.mk (Some 0) None None None None ElementNode 0%N
                           "span" "" []).
Proof.
  assert (Hrun : ∃ r s',
    Ex.convert 5 Ex.cyclicHeap (Some 0) Ex.convState0 = Done (r, None, s')
    ∧ ptrMap s' !! 0 = Some 0 ∧ ptrMap s' !! 1 = Some 1
    ∧ hheap s' !! 1
      = Some (html.Node.mk (Some 0) None None None None ElementNode 0%N
                           "span" "" [])).
  { eexists _, _. split; [by vm_compute|]. by vm_compute. }
  destruct Hrun as (r & s' & Hrun & H0 & H1 & Hn). exists r, s'.
  split; [exact Hrun|].
  destruct (conv_builds_the_image_of_the_graph
              Ex.VNil Ex.GoSprint Ex.orderedKeys Ex.parseFragment
              Ex.cyclicHeap 5 (Some 0) Ex.convState0 s' r None
              cyclicHeap_no_markup Hrun) as (_ & _ & _ & _ & _ & Hall).
  split; [by apply Hall|]. split; [by apply Hall|]. exact Hn.
Defined.

Lemma cyclicHeap_no_match :
  ∀ a v, Ex.cyclicHeap !! a = Some v → Type_ v = ElementNode →
         regLookup (reg (Ex.env Ex.rootType {["widget" := Ex.spanType]}))
                   (Data v) = None.
Proof.
  intros a v Hv _. unfold Ex.cyclicHeap in Hv.
  apply lookup_insert_Some in Hv as [[<- <-]|[_ Hv]]; [by vm_compute|].
  apply lookup_insert_Some in Hv as [[<- <-]|[_ Hv]]; [by vm_compute|].
  by rewrite lookup_empty in Hv.
Defined.

(** The walk over [<div><span/></div>] with only [widget] registered. *)
Lemma Walk_without_match_witness :
  ∃ r h',
    Ex.walk 5 Ex.rootType {["widget" := Ex.spanType]} None (Some 0)
            Ex.cyclicHeap = Done (r, h')
    ∧ r = None ∧ h' = Ex.cyclicHeap.
Proof.
  assert (Hrun : ∃ r h',
    Ex.walk 5 Ex.rootType {["widget" := Ex.spanType]} None (Some 0)
            Ex.cyclicHeap = Done (r, h')).
  { eexists _, _. by vm_compute. }
  destruct Hrun as (r & h' & Hrun). exists r, h'. split; [exact Hrun|].
  destruct (Walk_without_match_changes_nothing
              Ex.VNil Ex.VString Ex.GoSprint Ex.orderedKeys Ex.newInst
              Ex.parseFragment Ex.sinkOk Ex.styleAtom
              (Ex.env Ex.rootType {["widget" := Ex.spanType]}) Ex.cyclicHeap
              cyclicHeap_no_match) as (_ & Hwalk & _).
  exact (Hwalk 5 5 None (Some 0) r h' Hrun).
Defined.

(** The callback on [<widget/>] with the failing builder registered. *)
Lemma expand_error_witness :
  expand Ex.VString Ex.newInst 3
         (Ex.env Ex.rootType {["widget" := Ex.failingType]}) None 0
         (<[0 := Ex.element "widget" None None None None None]> ∅)
  = Done (Some "build failed",
          <[0 := Ex.element "widget" None None None None None]> ∅)
  ∧ ∃ v ct,
      (<[0 := Ex.element "widget" None None None None None]> ∅ : gmap nat Ex.Node)
        !! 0 = Some v
      ∧ Type_ v = ElementNode
      ∧ regLookup (reg (Ex.env Ex.rootType {["widget" := Ex.failingType]}))
                  (Data v) = Some ct.
Proof.
  assert (Hrun :
    expand Ex.VString Ex.newInst 3
           (Ex.env Ex.rootType {["widget" := Ex.failingType]}) None 0
           (<[0 := Ex.element "widget" None None None None None]> ∅)
    = Done (Some "build failed",
            <[0 := Ex.element "widget" None None None None None]> ∅))
    by (by vm_compute).
  split; [exact Hrun|].
  destruct (expand_error_is_instantiation_or_build_error
              Ex.VString Ex.newInst _ _ _ _ _ _ _ Hrun)
    as (v & ct & Hv & Hty & Hreg & _).
  by exists v, ct.
Defined.

(** Render on the styled root with [widget ↦ spanType]: two calls. *)
Lemma Render_writes_witness :
  ∃ w' calls,
    Ex.render 10 (Ex.env Ex.styledRootType {["widget" := Ex.spanType]})
              Ex.world0 = Done (None, w')
    ∧ written w' = calls
    ∧ length calls ≤ 2
    ∧ Forall (λ c, rc_out c = tt) calls
    ∧ calls ≠ [].
Proof.
  assert (Hrun : ∃ w',
    Ex.render 10 (Ex.env Ex.styledRootType {["widget" := Ex.spanType]})
              Ex.world0 = Done (None, w')).
  { eexists. by vm_compute. }
  destruct Hrun as (w' & Hrun).
  destruct (Render_writes_at_most_twice
              Ex.VNil Ex.VString Ex.GoSprint Ex.orderedKeys Ex.newInst
              Ex.parseFragment Ex.sinkOk Ex.styleAtom 10 _ _ _ _ Hrun)
    as (calls & Hw & Hlen & Hout & Hnil & _).
  exists w', calls. split; [exact Hrun|]. split; [exact Hw|].
  split; [exact Hlen|]. split; [exact Hout|]. by apply Hnil.
Defined.

(** The output step on [Ex.styleWorld] with a sink that rejects the style
    block, without any budget. *)
Lemma rejected_style_block_witness :
  ∃ cssn hh,
    renderOutput Ex.VNil Ex.GoSprint Ex.orderedKeys Ex.parseFragment
                 Ex.sinkClosed Ex.styleAtom 0 (Ex.env Ex.rootType ∅)
                 (Some 0) (Some 0) Ex.styleWorld
    = Done (Some "closed pipe",
            mkWorld (vheap Ex.styleWorld) hh [mkRenderCall tt cssn hh]).
Proof.
  destruct (rejected_style_block_stops_the_output
              Ex.VNil Ex.GoSprint Ex.orderedKeys Ex.parseFragment
              Ex.sinkClosed Ex.styleAtom (Ex.env Ex.rootType ∅) Ex.styleWorld
              0 1
              (Ex.element "style" None (Some 1) (Some 1) None None)
              (Ex.text "a{color:red}" (Some 0) None None))
    as (cssn & hh & Hout); [reflexivity..|].
  exists cssn, hh. by apply Hout.
Defined.

(** The match at node 1 of [Ex.builtHeap]: the component's style is linked
    into the root style at 2, its tree at 4 is spliced into node 1, and the
    heap keeps its eight nodes. *)
Lemma expansion_step_witness :
  ∃ h1 h2,
    aggregateStyle (Some 2) (Some 6) Ex.builtHeap = Done h1
    ∧ splice 3 1 (Some 4) h1 = Done h2
    ∧ dom h2 = dom Ex.builtHeap
    ∧ size (dom h2) = 8.
Proof.
  assert (Hrun : ∃ h1 h2,
    aggregateStyle (Some 2) (Some 6) Ex.builtHeap = Done h1
    ∧ splice 3 1 (Some 4) h1 = Done h2).
  { eexists _, _. split; by vm_compute. }
  destruct Hrun as (h1 & h2 & Hagg & Hsp). exists h1, h2.
  split; [exact Hagg|]. split; [exact Hsp|].
  destruct (expansion_step_keeps_the_nodes _ _ _ _ _ _ _ _ Hagg Hsp)
    as [_ Hdom].
  split; [exact Hdom|]. rewrite Hdom. by vm_compute.
Defined.

Lemma selfType_builds_its_own_tag :
  ∀ (d : gmap string Ex.GoValue) (h : gmap nat Ex.Node),
  ∃ h' r c rv cv,
    BuildVDOM Ex.selfType d h = (h', Some r, None, None)
    ∧ h !! r = None ∧ h !! c = None ∧ r ≠ c
    ∧ (∀ a x, h !! a = Some x → h' !! a = Some x)
    ∧ h' !! r = Some rv ∧ FirstChild rv = Some c
    ∧ h' !! c = Some cv ∧ Type_ cv = ElementNode ∧ Data cv = "widget"
    ∧ NextSibling cv = None.
Proof.
  intros d h.
  set (r := fresh (dom h)). set (c := fresh (dom h ∪ {[r]})).
  assert (Hr : h !! r = None) by (apply not_elem_of_dom, is_fresh).
  assert (Hc : c ∉ dom h ∪ {[r]}) by apply is_fresh.
  assert (Hc1 : h !! c = None).
  { apply not_elem_of_dom. intros Hin. apply Hc. apply elem_of_union. by left. }
  assert (Hrc : r ≠ c).
  { intros Heq. apply Hc. apply elem_of_union. right.
    by apply elem_of_singleton. }
  eexists _, r, c, _, _. split; [reflexivity|].
  do 3 (split; [done|]). split.
  { intros a x Ha.
    assert (a ≠ r) by (intros ->; congruence).
    assert (a ≠ c) by (intros ->; congruence).
    by rewrite !lookup_insert_ne by done. }
  split; [apply lookup_insert_eq|]. split; [reflexivity|].
  split; [rewrite lookup_insert_ne by done; apply lookup_insert_eq|].
  done.
Defined.

(** Root [<widget/>] with [widget ↦ selfType]: neither the walk nor Render
    returns with a budget of a hundred. *)
Lemma self_reference_witness :
  regLookup (reg (Ex.env Ex.bareRootType {["widget" := Ex.selfType]})) "widget"
  = Some Ex.selfType
  ∧ Ex.walk 100 Ex.bareRootType {["widget" := Ex.selfType]} None (Some 0)
            (<[0 := Ex.element "widget" None None None None None]> ∅)
    = OutOfFuel
  ∧ Ex.render 100 (Ex.env Ex.bareRootType {["widget" := Ex.selfType]})
              Ex.world0
    = OutOfFuel.
Proof.
  split; [reflexivity|].
  destruct (Walk_on_self_reference_never_returns
              Ex.VNil Ex.VString Ex.GoSprint Ex.orderedKeys Ex.newInst
              Ex.parseFragment Ex.sinkOk Ex.styleAtom
              (Ex.env Ex.bareRootType {["widget" := Ex.selfType]}) None
              "widget" Ex.selfType)
    as [Hwalk Hrender].
  - reflexivity.
  - intros props. eexists. reflexivity.
  - exact selfType_builds_its_own_tag.
  - split.
    + by apply (Hwalk 100 100 0 _
                  (Ex.element "widget" None None None None None)).
    + by apply (Hrender 100 Ex.world0 (mkComponentInst Ex.bareRootType ∅) 0
                  (<[0 := Ex.element "widget" None None None None None]> ∅)
                  (Ex.element "widget" None None None None None)).
Defined.

(** The callback on [<widget/>] with a builder that returns a nil tree. *)
Lemma expand_nil_tree_witness :
  BuildVDOM Ex.emptyType ∅
            (<[0 := Ex.element "widget" None None None None None]> ∅)
  = (<[0 := Ex.element "widget" None None None None None]> ∅, None, None, None)
  ∧ expand Ex.VString Ex.newInst 3
           (Ex.env Ex.rootType {["widget" := Ex.emptyType]}) None 0
           (<[0 := Ex.element "widget" None None None None None]> ∅)
    = Panic.
Proof.
  split; [reflexivity|].
  destruct (expand_panics_on_nil_tree
              Ex.VString Ex.newInst 3
              (Ex.env Ex.rootType {["widget" := Ex.emptyType]}) None 0
              (<[0 := Ex.element "widget" None None None None None]> ∅)
              (<[0 := Ex.element "widget" None None None None None]> ∅)
              (Ex.element "widget" None None None None None)
              Ex.emptyType (mkComponentInst Ex.emptyType ∅) None)
    as [Hexp _]; [reflexivity..|].
  exact Hexp.
Defined.
